(** * Guardian agent: session dialogue, SSH handoff and credential issuance

    A shallow embedding of [agent.go] (package [guardianagent]).

    The agent's methods are effectful Go code: they write control packets,
    prompt the policy, invoke signers and may panic.  They are embedded in a
    small monad [M] over the history of observable events; everything the
    methods call but do not define (the policy, the UI, the connection,
    [known_hosts], the marshallers, the SSH proxy library) is gathered in
    an environment record [Env] whose fields may depend on that history. *)

From Stdlib Require Import List String Ascii ZArith Lia Bool.
From Stdlib Require Import Strings.Byte.
From Stdlib Require Import Decimal DecimalString.
From Equations Require Import Equations.
Import ListNotations.

Local Open Scope string_scope.
Local Open Scope Z_scope.
Local Open Scope list_scope.

Infix "+++" := String.append (right associativity, at level 60).

(** ** Data model *)

(** Go's [[]byte]. *)
Definition bytes := list byte.

(** A Go [error] value is identified with the text of its [Error()]. A
    function returning [error] returns [option error]; [None] is [nil]. *)
Definition error := string.

(** A Go result pair [(v, err)] with [err != nil] excluding [v]. *)
Inductive result (A : Type) : Type :=
| Ok (a : A)
| Err (e : error).
Arguments Ok {A} a.
Arguments Err {A} e.

(** [type MsgNum uint8]: the closed enumeration of control messages.  The
    constant declarations are not part of [agent.go]; a byte that is none of
    the declared constants is [MsgNum_unknown] of that byte. *)
Inductive MsgNum : Type :=
| MsgNum_AGENT_FORWARDING_NOTICE
| MsgNum_EXECUTION_REQUEST
| MsgNum_EXECUTION_APPROVED
| MsgNum_EXECUTION_DENIED
| MsgNum_CREDENTIAL_REQUEST
| MsgNum_CREDENTIAL_RESPONSE
| MsgNum_HANDOFF_COMPLETE
| MsgNum_HANDOFF_FAILED
| MsgNum_AGENTC_EXTENSION
| MsgNum_AGENT_SUCCESS
| MsgNum_AGENT_FAILURE
| MsgNum_unknown (wire : Z).

(** The messages the stub may legitimately send to the agent. *)
Definition recognized (m : MsgNum) : bool :=
  match m with
  | MsgNum_unknown _ => false
  | _ => true
  end.

Record Scope : Type := mkScope {
  ClientName : string;
  ClientHostname : string;
  ClientPort : Z;            (* uint32 *)
  ServiceHostname : string;
  ServiceUsername : string
}.

(** [var scope Scope]: the zero value. *)
Definition Scope_zero : Scope := mkScope "" "" 0 "" "".

Record Challenge : Type := mkChallenge {
  ServerPublicKeys : list bytes
}.

(** [req.Challenge] is a pointer and may be [nil]. *)
Record CredentialRequest : Type := mkCredentialRequest {
  req_Op : bytes;
  req_Challenge : option Challenge
}.

Record Credential : Type := mkCredential {
  cred_Op : bytes;
  cred_Challenge : option Challenge;
  SignerNonce : bytes;
  SignatureKey : bytes;
  Signature : bytes;
  SignatureFormat : string
}.

Inductive CredentialResponse_Status : Type :=
| CredentialResponse_APPROVED
| CredentialResponse_DENIED.

Record CredentialResponse : Type := mkCredentialResponse {
  Status : CredentialResponse_Status;
  resp_Credential : option Credential
}.

Record AgentForwardingNoticeMsg : Type := mkNotice {
  ReadableName : string;
  Host : string;
  Port : Z                   (* uint32 *)
}.

Record ExecutionRequestMessage : Type := mkExecReq {
  User : string;
  Server : string;
  Command : string
}.

Record AgentCExtensionMsg : Type := mkExtension {
  ExtensionType : string;
  Contents : bytes
}.

(** The structs handed to [ssh.Marshal] in this file. *)
Inductive SshMessage : Type :=
| ExecutionDeniedMessage (Reason : string)
| HandoffFailedMessage (Msg : string)
| HandoffCompleteMessage (NextTransportByte : Z).   (* uint32 *)

(** [ssh.Signature]. *)
Record SshSignature : Type := mkSignature {
  Format : string;
  Blob : bytes
}.

(** ** Go integers *)

(** [int] on the build target (GOARCH = amd64): 64 bits, two's complement. *)
Definition int_wrap (x : Z) : Z := (x + 2 ^ 63) mod 2 ^ 64 - 2 ^ 63.
Definition int_sub (a b : Z) : Z := int_wrap (a - b).

(** The conversion [uint32(x)] keeps the low 32 bits. *)
Definition uint32 (x : Z) : Z := x mod 2 ^ 32.

(** ** Connections and events *)

(** The byte streams the agent writes to: the stub's connection and the
    three streams the multiplexer yields. *)
Inductive Stream : Type :=
| conn_stub
| stream_control
| stream_sshData
| stream_transport.

(** What a call of [ReadControlPacket] can return besides a packet. The
    loop compares the error with [io.EOF] and [io.ErrClosedPipe] by
    identity, so the two are kept apart from every other error. *)
Inductive ReadError : Type :=
| io_EOF
| io_ErrClosedPipe
| ReadFailure (text : string).

(** The inbound side of a connection, as the successive results of
    [ReadControlPacket]: the packets that arrive, then the error that ends
    the stream. *)
Record Conn : Type := mkConn {
  incoming : list (MsgNum * bytes);
  closing : ReadError
}.

(** What the payload of a written control packet encodes: nothing
    ([[]byte{}]), a struct given to [ssh.Marshal], or a response given to
    [proto.Marshal]. *)
Inductive Packet : Type :=
| Packet_empty
| Packet_ssh (msg : SshMessage)
| Packet_resp (resp : CredentialResponse).

(** Observable actions, in the order they happen.  A write records the
    message next to the bytes that encode it. *)
Inductive Event : Type :=
| EvInform (text : string)
| EvLog (text : string)
| EvWriteControlPacket (on : Stream) (msgNum : MsgNum) (body : Packet)
    (payload : bytes)
| EvRequestApproval (scope : Scope) (cmd : string)
| EvRequestCredentialApproval (scope : Scope) (req : CredentialRequest)
| EvSign (signerKey : bytes) (data : bytes)
| EvYamuxServer
| EvYamuxAccept
| EvYamuxClose
| EvClose (s : Stream)
| EvNewProxyConn (hostname user : string) (hostKeyAlgs : list string)
| EvProxyRun.

Definition World := list Event.

(** ** The monad of agent code *)

(** A call either returns or panics (a Go run-time panic unwinds the
    goroutine; nothing in [agent.go] recovers). *)
Inductive Outcome (A : Type) : Type :=
| Returned (a : A)
| Panicked (reason : string).
Arguments Returned {A} a.
Arguments Panicked {A} reason.

Definition M (A : Type) : Type := World -> Outcome A * World.

Definition ret {A} (a : A) : M A := fun w => (Returned a, w).

Definition bind {A B} (m : M A) (k : A -> M B) : M B :=
  fun w =>
    match m w with
    | (Returned a, w') => k a w'
    | (Panicked r, w') => (Panicked r, w')
    end.

Definition panic {A} (reason : string) : M A := fun w => (Panicked reason, w).

(** Record an event. *)
Definition emit (e : Event) : M unit := fun w => (Returned tt, w ++ [e]).

(** Consult the environment on the history so far. *)
Definition ask {A} (f : World -> A) : M A := fun w => (Returned (f w), w).

(** [defer cleanup] followed by [body]: the cleanup runs when the body
    returns and also when it panics. *)
Definition defer {A} (cleanup : M unit) (body : M A) : M A :=
  fun w =>
    match body w with
    | (Returned a, w') =>
        match cleanup w' with
        | (Returned _, w'') => (Returned a, w'')
        | (Panicked r, w'') => (Panicked r, w'')
        end
    | (Panicked r, w') =>
        match cleanup w' with
        | (_, w'') => (Panicked r, w'')
        end
    end.

Declare Scope agent_scope.
Delimit Scope agent_scope with agent.
Notation "x <- m ;; k" := (bind m (fun x => k))
  (at level 61, m at next level, right associativity) : agent_scope.
Notation "m ;;; k" := (bind m (fun _ => k))
  (at level 61, right associativity) : agent_scope.
Local Open Scope agent_scope.

(** ** The environment *)

(** [ssh.Signer]. [Sign] draws from [rand.Reader], so it may depend on the
    history. *)
Record Signer : Type := mkSigner {
  PublicKey_Marshal : bytes;
  Sign : World -> bytes -> result SshSignature
}.

(** Everything [agent.go] calls without defining it.  A field that takes
    the history may answer differently from one call to the next (a prompt,
    a random draw, a connection that went away).  The policy and the
    marshallers read the values they are given and leave them as they
    are. *)
Record Env : Type := mkEnv {
  (* wire constants *)
  MsgNum_value : MsgNum -> Z;
  AgentGuardExtensionType : string;
  (* marshalling *)
  ssh_Marshal : SshMessage -> bytes;
  ssh_Unmarshal_notice : bytes -> result AgentForwardingNoticeMsg;
  ssh_Unmarshal_execReq : bytes -> result ExecutionRequestMessage;
  (* the struct as [ssh.Unmarshal] leaves it; its error is dropped *)
  ssh_Unmarshal_extension : bytes -> AgentCExtensionMsg;
  proto_Unmarshal_credReq : bytes -> result CredentialRequest;
  (* [proto.Marshal] fails on a message only through one of its fields;
     a response that carries just the status enum always marshals *)
  proto_Marshal_status : CredentialResponse_Status -> bytes;
  proto_Marshal_status_cred :
    CredentialResponse_Status -> Credential -> result bytes;
  proto_Marshal_cred : Credential -> result bytes;
  fmt_resp : CredentialResponse -> string;            (* [%v] *)
  CredentialRequestToString : Scope -> CredentialRequest -> string;
  (* the connection *)
  write_result : World -> Stream -> MsgNum -> bytes -> option error;
  (* policy *)
  policy_RequestApproval : World -> Scope -> string -> option error;
  policy_RequestCredentialApproval :
    World -> Scope -> CredentialRequest -> option error;
  (* known_hosts and keys *)
  PublicKey : Type;
  ssh_ParsePublicKey : bytes -> option PublicKey;
  knownhosts_New : World -> result (string -> PublicKey -> option error);
  knownhosts_OrderHostKeyAlgs : World -> string -> result (list string);
  getSigners : World -> list Signer;
  rand_ReadFull : World -> nat -> result bytes;
  (* multiplexer *)
  yamux_Server : World -> option error;
  yamux_Accept : World -> option error;
  (* SSH proxy *)
  ssh_NewProxyConn : World -> option error;
  proxy_done : World -> option error;   (* the value received on [done] *)
  BytesRead : World -> Z;               (* Go [int] *)
  BufferedFromServer : World -> Z       (* Go [int] *)
}.

(** ** Library helpers with fixed semantics *)

(** [proto.Marshal] on a [CredentialResponse]. *)
Definition proto_Marshal_resp (E : Env) (resp : CredentialResponse)
  : result bytes :=
  match resp_Credential resp with
  | None => Ok (proto_Marshal_status E (Status resp))
  | Some cred => proto_Marshal_status_cred E (Status resp) cred
  end.

Fixpoint strings_IndexByte_found (c : ascii) (s : string) : bool :=
  match s with
  | EmptyString => false
  | String a rest => if Ascii.eqb a c then true else strings_IndexByte_found c rest
  end.

(** [net.JoinHostPort]: a host that contains a colon is taken for a
    literal IPv6 address and put in square brackets. *)
Definition net_JoinHostPort (host port : string) : string :=
  if strings_IndexByte_found ":" host
  then "[" +++ host +++ "]:" +++ port
  else host +++ ":" +++ port.

(** [strconv.FormatUint(n, 10)]. *)
Definition strconv_FormatUint (n : Z) : string :=
  NilZero.string_of_uint (N.to_uint (Z.to_N n)).

(** The verb [%d]. *)
Definition fmt_d (n : Z) : string := NilZero.string_of_int (Z.to_int n).

(** ** The agent *)

Section Agent.

Variable E : Env.

(** [WriteControlPacket(conn, msgNum, payload)]: the packet is put on the
    stream and the connection says whether that worked. *)
Definition WriteControlPacket (on : Stream) (msgNum : MsgNum) (body : Packet)
    (payload : bytes) : M (option error) :=
  fun w => (Returned (write_result E w on msgNum payload),
            w ++ [EvWriteControlPacket on msgNum body payload]).

Definition UI_Inform (text : string) : M unit := emit (EvInform text).

Definition log_Printf (text : string) : M unit := emit (EvLog text).

(** *** proxySSH *)

(** Lines 78-88 of [proxySSH]: the control message chosen from the value
    received on [done] and the two byte counters. *)
Definition handoffMessage (err : option error) (bytesRead buffered : Z)
  : MsgNum * SshMessage :=
  match err with
  | Some e => (MsgNum_HANDOFF_FAILED, HandoffFailedMessage e)
  | None =>
      (MsgNum_HANDOFF_COMPLETE,
       HandoffCompleteMessage (uint32 (int_sub bytesRead buffered)))
  end.

Definition proxySSH (scope : Scope) : M (option error) :=
  r <- ask (fun w => knownhosts_OrderHostKeyAlgs E w (ServiceHostname scope));;
  match r with
  | Err e =>
      ret (Some ("Failed to extract host key algorithms from known_hosts: " +++ e))
  | Ok hostKeyAlgs =>
      r <- (fun w => (Returned (ssh_NewProxyConn E w),
                      w ++ [EvNewProxyConn (ServiceHostname scope)
                                           (ServiceUsername scope) hostKeyAlgs]));;
      match r with
      | Some e => ret (Some e)
      | None =>
          err <- (fun w => (Returned (proxy_done E w), w ++ [EvProxyRun]));;
          bytesRead <- ask (BytesRead E);;
          buffered <- ask (BufferedFromServer E);;
          let (msgNum, msg) := handoffMessage err bytesRead buffered in
          let packet := ssh_Marshal E msg in
          WriteControlPacket stream_control msgNum (Packet_ssh msg) packet
      end
  end.

(** *** handleExecutionRequest *)

Definition policy_call_RequestApproval (scope : Scope) (cmd : string)
  : M (option error) :=
  fun w => (Returned (policy_RequestApproval E w scope cmd),
            w ++ [EvRequestApproval scope cmd]).

Definition ymux_Accept : M (option error) :=
  fun w => (Returned (yamux_Accept E w), w ++ [EvYamuxAccept]).

Definition handleExecutionRequest (scope : Scope) (cmd : string)
  : M (option error) :=
  err <- policy_call_RequestApproval scope cmd;;
  match err with
  | Some e =>
      WriteControlPacket conn_stub MsgNum_EXECUTION_DENIED
        (Packet_ssh (ExecutionDeniedMessage e))
        (ssh_Marshal E (ExecutionDeniedMessage e));;;
      ret None
  | None =>
      WriteControlPacket conn_stub MsgNum_EXECUTION_APPROVED Packet_empty [];;;
      err <- (fun w => (Returned (yamux_Server E w), w ++ [EvYamuxServer]));;
      match err with
      | Some e => ret (Some ("Failed to start ymux: " +++ e))
      | None =>
      defer (emit EvYamuxClose) (
      err <- ymux_Accept;;
      match err with
      | Some e => ret (Some ("Failed to accept control stream: " +++ e))
      | None =>
      defer (emit (EvClose stream_control)) (
      err <- ymux_Accept;;
      match err with
      | Some e => ret (Some ("Failed to accept data stream: " +++ e))
      | None =>
      defer (emit (EvClose stream_sshData)) (
      err <- ymux_Accept;;
      match err with
      | Some e => ret (Some ("Failed to get transport stream: " +++ e))
      | None =>
      defer (emit (EvClose stream_transport)) (
      err <- proxySSH scope;;
      emit (EvClose stream_transport);;;
      emit (EvClose stream_sshData);;;
      emit (EvClose stream_control);;;
      match err with
      | Some e => ret (Some ("Proxy session finished with error: " +++ e))
      | None => ret None
      end)
      end)
      end)
      end)
      end
  end.

(** *** checkChallenge *)

(** The nil-safe getter generated for the repeated field. *)
Definition GetServerPublicKeys (challenge : option Challenge) : list bytes :=
  match challenge with
  | Some c => ServerPublicKeys c
  | None => []
  end.

(** The endpoint the candidates are checked against. *)
Definition client_endpoint (scope : Scope) : string :=
  net_JoinHostPort (ClientHostname scope) (strconv_FormatUint (ClientPort scope)).

(** One candidate: it parses and the known-hosts callback accepts it. *)
Definition candidate_ok (kh : string -> PublicKey E -> option error)
    (scope : Scope) (pkBytes : bytes) : bool :=
  match ssh_ParsePublicKey E pkBytes with
  | Some pk =>
      match kh (client_endpoint scope) pk with
      | None => true
      | Some _ => false
      end
  | None => false
  end.

(** The [range] loop: the first candidate that passes, if any. *)
Fixpoint checkChallenge_loop (kh : string -> PublicKey E -> option error)
    (scope : Scope) (keys : list bytes) : option bytes :=
  match keys with
  | [] => None
  | pkBytes :: rest =>
      if candidate_ok kh scope pkBytes then Some pkBytes
      else checkChallenge_loop kh scope rest
  end.

(** The challenge is passed by pointer and rewritten in place; the
    embedding returns it next to the error. *)
Definition checkChallenge (scope : Scope) (challenge : option Challenge)
  : M (option error * option Challenge) :=
  r <- ask (knownhosts_New E);;
  match r with
  | Err e => ret (Some ("Failed to get known hosts: " +++ e), challenge)
  | Ok kh =>
      match checkChallenge_loop kh scope (GetServerPublicKeys challenge) with
      | Some pkBytes =>
          match challenge with
          | Some _ => ret (None, Some (mkChallenge [pkBytes]))
          | None => panic "invalid memory address or nil pointer dereference"
          end
      | None =>
          ret (Some "Could not verify server public key against known_hosts",
               challenge)
      end
  end.

(** *** Credentials *)

Definition writeCredentialResponse (conn : Stream) (resp : CredentialResponse)
  : M (option error) :=
  match proto_Marshal_resp E resp with
  | Err e =>
      ret (Some ("Failed to marshal credential response: " +++ e +++ ", "
                 +++ fmt_resp E resp))
  | Ok b =>
      err <- WriteControlPacket conn MsgNum_CREDENTIAL_RESPONSE (Packet_resp resp) b;;
      match err with
      | Some e => ret (Some ("Failed to write credential respoinse: " +++ e))
      | None => ret None
      end
  end.

Definition signer_call_Sign (signer : Signer) (data : bytes)
  : M (result SshSignature) :=
  fun w => (Returned (Sign signer w data),
            w ++ [EvSign (PublicKey_Marshal signer) data]).

(** The credential is passed by pointer; the embedding returns it next to
    the error.  [signers[0]] on an empty slice is a run-time panic. *)
Definition signCredential (cred : Credential) : M (option error * Credential) :=
  signers <- ask (getSigners E);;
  match signers with
  | [] => panic "index out of range [0] with length 0"
  | signer :: _ =>
      r <- ask (fun w => rand_ReadFull E w 32);;
      match r with
      | Err e => ret (Some e, cred)
      | Ok nonce =>
          let cred :=
            mkCredential (cred_Op cred) (cred_Challenge cred)
                         nonce (PublicKey_Marshal signer)
                         (Signature cred) (SignatureFormat cred) in
          match proto_Marshal_cred E cred with
          | Err e => ret (Some e, cred)
          | Ok bytes_to_sign =>
              r <- signer_call_Sign signer bytes_to_sign;;
              match r with
              | Err e => ret (Some e, cred)
              | Ok sig =>
                  ret (None,
                       mkCredential (cred_Op cred) (cred_Challenge cred)
                                    (SignerNonce cred) (SignatureKey cred)
                                    (Blob sig) (Format sig))
              end
          end
      end
  end.

Definition policy_call_RequestCredentialApproval (scope : Scope)
    (req : CredentialRequest) : M (option error) :=
  fun w => (Returned (policy_RequestCredentialApproval E w scope req),
            w ++ [EvRequestCredentialApproval scope req]).

Definition DENIED : CredentialResponse :=
  mkCredentialResponse CredentialResponse_DENIED None.

Definition APPROVED (cred : Credential) : CredentialResponse :=
  mkCredentialResponse CredentialResponse_APPROVED (Some cred).

(** [req] is a pointer: the narrowing done by [checkChallenge] is seen by
    the policy, by the credential and by the caller, so the request is
    returned next to the error. *)
Definition handleCredentialRequest (conn : Stream) (scope : Scope)
    (req : CredentialRequest) : M (option error * CredentialRequest) :=
  r <- checkChallenge scope (req_Challenge req);;
  let (err, challenge) := r in
  let req := mkCredentialRequest (req_Op req) challenge in
  match err with
  | Some e =>
      writeCredentialResponse conn DENIED;;;
      ret (Some ("request BLOCKED due to invalid challenge: " +++ e), req)
  | None =>
      err <- policy_call_RequestCredentialApproval scope req;;
      match err with
      | Some _ =>
          err <- writeCredentialResponse conn DENIED;;
          ret (err, req)
      | None =>
          let cred :=
            mkCredential (req_Op req) (req_Challenge req) [] [] [] "" in
          r <- signCredential cred;;
          let (err, cred) := r in
          match err with
          | Some e =>
              writeCredentialResponse conn DENIED;;;
              ret (Some ("Failed to sign credential: " +++ e), req)
          | None =>
              err <- writeCredentialResponse conn (APPROVED cred);;
              ret (err, req)
          end
      end
  end.

(** *** HandleConnection *)

(** The [for] loop, by recursion on the packets still to arrive. *)
Fixpoint HandleConnection_loop (scope : Scope)
    (packets : list (MsgNum * bytes)) (closing : ReadError)
  : M (option error) :=
  match packets with
  | [] =>
      match closing with
      | io_EOF | io_ErrClosedPipe => ret None
      | ReadFailure e => ret (Some ("Failed to read control packet: " +++ e))
      end
  | (msgNum, payload) :: rest =>
      log_Printf ("Got msgNum: " +++ fmt_d (MsgNum_value E msgNum));;;
      let default :=
        WriteControlPacket conn_stub MsgNum_AGENT_FAILURE Packet_empty [];;;
        ret (Some ("Unrecognized incoming message: "
                   +++ fmt_d (MsgNum_value E msgNum))) in
      match msgNum with
      | MsgNum_AGENT_FORWARDING_NOTICE =>
          match ssh_Unmarshal_notice E payload with
          | Err e =>
              ret (Some ("Failed to unmarshal AgentForwardingNoticeMsg: " +++ e))
          | Ok notice =>
              let scope :=
                mkScope (ReadableName notice) (Host notice) (Port notice)
                        (ServiceHostname scope) (ServiceUsername scope) in
              HandleConnection_loop scope rest closing
          end
      | MsgNum_EXECUTION_REQUEST =>
          match ssh_Unmarshal_execReq E payload with
          | Err e =>
              ret (Some ("Failed to unmarshal ExecutionRequestMessage: " +++ e))
          | Ok execReq =>
              let scope :=
                mkScope (ClientName scope) (ClientHostname scope)
                        (ClientPort scope) (Server execReq) (User execReq) in
              handleExecutionRequest scope (Command execReq)
          end
      | MsgNum_CREDENTIAL_REQUEST =>
          match proto_Unmarshal_credReq E payload with
          | Err e => ret (Some ("Failed to unmarshal CredentialRequest: " +++ e))
          | Ok credReq =>
              r <- handleCredentialRequest conn_stub scope credReq;;
              let (err, credReq) := r in
              match err with
              | Some e =>
                  UI_Inform ("Error handling "
                             +++ CredentialRequestToString E scope credReq
                             +++ ": " +++ e)
              | None => ret tt
              end;;;
              HandleConnection_loop scope rest closing
          end
      | MsgNum_AGENTC_EXTENSION =>
          let queryExtension := ssh_Unmarshal_extension E payload in
          if String.eqb (ExtensionType queryExtension) (AgentGuardExtensionType E)
          then
            WriteControlPacket conn_stub MsgNum_AGENT_SUCCESS Packet_empty [];;;
            HandleConnection_loop scope rest closing
          else default
      | _ => default
      end
  end.

Definition HandleConnection (conn : Conn) : M (option error) :=
  UI_Inform "New incoming connection";;;
  HandleConnection_loop Scope_zero (incoming conn) (closing conn).

End Agent.

(** ** Control packet framing *)

Section Framing.

(** The byte of each message number: the inverse of the missing constant
    declarations. *)
Variable MsgNum_of_byte : byte -> MsgNum.

(** The maximum payload size the reader enforces. *)
Variable maxPayload : Z.

Definition be32 (b0 b1 b2 b3 : byte) : Z :=
  Z.of_N (Byte.to_N b0) * 2 ^ 24 + Z.of_N (Byte.to_N b1) * 2 ^ 16
  + Z.of_N (Byte.to_N b2) * 2 ^ 8 + Z.of_N (Byte.to_N b3).

(** Modelled from the spec: [ReadControlPacket] is defined outside
    [agent.go].  Section 6 gives the layout
    [msg_num:u8 || payload_len:u32_be || payload] and asks readers to
    enforce a maximum payload size; section 7 makes a short read a framing
    error; section 4.1 makes end of file at a packet boundary the clean end
    of the stream.  The function reads one packet from the bytes that
    arrive before end of file and returns the bytes left. *)
Definition wire_ReadControlPacket (s : list byte)
  : (MsgNum * bytes + ReadError) * list byte :=
  match s with
  | [] => (inr io_EOF, [])
  | m :: b0 :: b1 :: b2 :: b3 :: rest =>
      let len := be32 b0 b1 b2 b3 in
      if maxPayload <? len
      then (inr (ReadFailure "control packet too large"), rest)
      else if Z.of_nat (List.length rest) <? len
           then (inr (ReadFailure "unexpected EOF"), [])
           else (inl (MsgNum_of_byte m, firstn (Z.to_nat len) rest),
                 skipn (Z.to_nat len) rest)
  | _ => (inr (ReadFailure "unexpected EOF"), [])
  end.

(** The stream stops inside a packet: some of its bytes arrived, not all. *)
Definition ends_mid_packet (s : list byte) : bool :=
  match s with
  | [] => false
  | m :: b0 :: b1 :: b2 :: b3 :: rest =>
      let len := be32 b0 b1 b2 b3 in
      (len <=? maxPayload) && (Z.of_nat (List.length rest) <? len)
  | _ => true
  end.

Definition inspect {A} (a : A) : {b : A | a = b} := exist _ a eq_refl.

(** The connection a byte stream amounts to: [ReadControlPacket] applied
    until it fails. *)
Equations? wire_Conn (s : list byte) : Conn by wf (List.length s) lt :=
  wire_Conn s with inspect (wire_ReadControlPacket s) => {
    | exist _ (inl p, s') _ :=
        mkConn (p :: incoming (wire_Conn s')) (closing (wire_Conn s'));
    | exist _ (inr e, _) _ := mkConn [] e }.
Proof.
  all: match goal with H : wire_ReadControlPacket _ = _ |- _ => revert H end;
    unfold wire_ReadControlPacket;
    destruct s as [|? [|? [|? [|? [|? body]]]]]; try discriminate;
    destruct (maxPayload <? _); try discriminate;
    destruct (Z.of_nat (List.length body) <? _); try discriminate;
    intros H; inversion H; subst; rewrite List.length_skipn; simpl; lia.
Qed.

(** Modelled from the spec: a packet as it travels under the layout of
    section 6, with the message number, the four bytes of the length field
    and the payload. *)
Record WireFrame : Type := mkFrame {
  frame_num : byte;
  frame_len : byte * byte * byte * byte;
  frame_payload : bytes
}.

Definition frame_bytes (f : WireFrame) : list byte :=
  let '(b0, b1, b2, b3) := frame_len f in
  frame_num f :: b0 :: b1 :: b2 :: b3 :: frame_payload f.

Definition frame_length (f : WireFrame) : Z :=
  let '(b0, b1, b2, b3) := frame_len f in be32 b0 b1 b2 b3.

(** The length field holds the length of the payload, and the reader
    accepts it. *)
Definition whole_frame (f : WireFrame) : bool :=
  (frame_length f =? Z.of_nat (List.length (frame_payload f)))
  && (frame_length f <=? maxPayload).

End Framing.

(** ** Concrete environments

    A family of small environments on which the agent can be run.  The
    wire constants, encodings and keys are illustrative; the scenario says
    how the connection, the policy, the signers and the proxy behave. *)

Module Sample.

Definition wire_value (m : MsgNum) : Z :=
  match m with
  | MsgNum_AGENT_FORWARDING_NOTICE => 200
  | MsgNum_EXECUTION_REQUEST => 201
  | MsgNum_EXECUTION_APPROVED => 202
  | MsgNum_EXECUTION_DENIED => 203
  | MsgNum_CREDENTIAL_REQUEST => 204
  | MsgNum_CREDENTIAL_RESPONSE => 205
  | MsgNum_HANDOFF_COMPLETE => 206
  | MsgNum_HANDOFF_FAILED => 207
  | MsgNum_AGENTC_EXTENSION => 27
  | MsgNum_AGENT_SUCCESS => 6
  | MsgNum_AGENT_FAILURE => 5
  | MsgNum_unknown wire => wire
  end.

Definition MsgNum_of_byte (b : byte) : MsgNum :=
  let v := Z.of_N (Byte.to_N b) in
  let named :=
    [MsgNum_AGENT_FORWARDING_NOTICE; MsgNum_EXECUTION_REQUEST;
     MsgNum_EXECUTION_APPROVED; MsgNum_EXECUTION_DENIED;
     MsgNum_CREDENTIAL_REQUEST; MsgNum_CREDENTIAL_RESPONSE;
     MsgNum_HANDOFF_COMPLETE; MsgNum_HANDOFF_FAILED;
     MsgNum_AGENTC_EXTENSION; MsgNum_AGENT_SUCCESS; MsgNum_AGENT_FAILURE] in
  match find (fun m => wire_value m =? v) named with
  | Some m => m
  | None => MsgNum_unknown v
  end.

Definition byte_of_Z (z : Z) : byte :=
  match Byte.of_N (Z.to_N (z mod 256)) with
  | Some b => b
  | None => x00
  end.

Definition u32_bytes (n : Z) : bytes :=
  [byte_of_Z (n / 2 ^ 24); byte_of_Z (n / 2 ^ 16); byte_of_Z (n / 2 ^ 8);
   byte_of_Z n].

Definition ssh_string (s : string) : bytes :=
  u32_bytes (Z.of_nat (String.length s)) ++ list_byte_of_string s.

Definition marshal_ssh (msg : SshMessage) : bytes :=
  match msg with
  | ExecutionDeniedMessage reason => ssh_string reason
  | HandoffFailedMessage m => ssh_string m
  | HandoffCompleteMessage n => u32_bytes n
  end.

Definition guardExtension : string := "guard@sample".

(** Scenario E1 of the specification. *)
Definition notice : AgentForwardingNoticeMsg := mkNotice "laptop" "10.0.0.2" 2222.
Definition execReq : ExecutionRequestMessage :=
  mkExecReq "alice" "srv.example" "uptime".

(** A request payload lists one-byte key blobs. *)
Definition credReq (payload : bytes) : CredentialRequest :=
  mkCredentialRequest [x01] (Some (mkChallenge (map (fun b => [b]) payload))).

(** A blob parses when it is a single byte other than [0xff]. *)
Definition ParsePublicKey (blob : bytes) : option byte :=
  match blob with
  | [b] => if Byte.eqb b xff then None else Some b
  | _ => None
  end.

(** [known_hosts] holds the key [0x2a] for [10.0.0.2:2222]. *)
Definition known_hosts (addr : string) (pk : byte) : option error :=
  if String.eqb addr "10.0.0.2:2222" && Byte.eqb pk x2a then None
  else Some "knownhosts: key is unknown".

Definition marshal_cred (cred : Credential) : bytes :=
  cred_Op cred ++ List.concat (GetServerPublicKeys (cred_Challenge cred))
  ++ SignerNonce cred ++ SignatureKey cred ++ Signature cred.

Definition signer_ok : Signer :=
  mkSigner [x01] (fun _ data => Ok (mkSignature "ssh-ed25519" data)).

Definition signer_broken : Signer :=
  mkSigner [x02] (fun _ _ => Err "signing failed").

Record Scenario : Type := mkScenario {
  sc_write : option error;          (* what every write returns *)
  sc_exec_policy : option error;
  sc_cred_policy : option error;
  sc_signers : list Signer;
  sc_marshal_cred : bool;           (* does the credential marshal? *)
  sc_done : option error;           (* what the proxy run ends with *)
  sc_bytesRead : Z;
  sc_buffered : Z
}.

Definition env (sc : Scenario) : Env :=
  {| MsgNum_value := wire_value;
     AgentGuardExtensionType := guardExtension;
     ssh_Marshal := marshal_ssh;
     ssh_Unmarshal_notice := fun _ => Ok notice;
     ssh_Unmarshal_execReq := fun _ => Ok execReq;
     ssh_Unmarshal_extension :=
       fun payload => mkExtension (string_of_list_byte payload) [];
     proto_Unmarshal_credReq := fun payload => Ok (credReq payload);
     proto_Marshal_status :=
       fun st => match st with
                 | CredentialResponse_APPROVED => [x00]
                 | CredentialResponse_DENIED => [x01]
                 end;
     proto_Marshal_status_cred :=
       fun st cred => Ok (x00 :: marshal_cred cred);
     proto_Marshal_cred :=
       fun cred => if sc_marshal_cred sc then Ok (marshal_cred cred)
                   else Err "proto: required field not set";
     fmt_resp := fun _ => "response";
     CredentialRequestToString := fun _ _ => "credential request";
     write_result := fun _ _ _ _ => sc_write sc;
     policy_RequestApproval := fun _ _ _ => sc_exec_policy sc;
     policy_RequestCredentialApproval := fun _ _ _ => sc_cred_policy sc;
     PublicKey := byte;
     ssh_ParsePublicKey := ParsePublicKey;
     knownhosts_New := fun _ => Ok known_hosts;
     knownhosts_OrderHostKeyAlgs := fun _ _ => Ok ["ssh-ed25519"];
     getSigners := fun _ => sc_signers sc;
     rand_ReadFull := fun _ n => Ok (repeat x00 n);
     yamux_Server := fun _ => None;
     yamux_Accept := fun _ => None;
     ssh_NewProxyConn := fun _ => None;
     proxy_done := fun _ => sc_done sc;
     BytesRead := fun _ => sc_bytesRead sc;
     BufferedFromServer := fun _ => sc_buffered sc |}.

(** Everything works and everybody agrees; 42 bytes were read from the
    server and 7 of them are still buffered. *)
Definition nominal : Scenario :=
  mkScenario None None None [signer_ok] true None 42 7.

(** The client of scenario E1, once identified. *)
Definition laptop : Scope := mkScope "laptop" "10.0.0.2" 2222 "" "".

(** The session of scenario E1. *)
Definition session : Scope :=
  mkScope "laptop" "10.0.0.2" 2222 "srv.example" "alice".

(** More than [2^32] bytes were read from the server before the handoff. *)
Definition long_handshake : Scenario :=
  mkScenario None None None [signer_ok] true None 4294967338 7.

(** The run of scenario E1 fails during the SSH handshake. *)
Definition failed_handshake : Scenario :=
  mkScenario None None None [signer_ok] true
    (Some "ssh: handshake failed") 42 7.

(** The policy denies the execution request (scenario E2). *)
Definition exec_denied : Scenario :=
  mkScenario None (Some "denied") None [signer_ok] true None 42 7.

(** The policy denies credential requests. *)
Definition cred_denied : Scenario :=
  mkScenario None None (Some "denied") [signer_ok] true None 42 7.

(** The policy denies credential requests and the stub has closed its end
    of the connection. *)
Definition cred_denied_stub_gone : Scenario :=
  mkScenario (Some "io: read/write on closed pipe") None (Some "denied")
    [signer_ok] true None 42 7.

(** Nobody can sign. *)
Definition no_signers : Scenario :=
  mkScenario None None None [] true None 42 7.

(** The only signer fails. *)
Definition signer_fails : Scenario :=
  mkScenario None None None [signer_broken] true None 42 7.

(** The credential does not marshal. *)
Definition cred_unmarshallable : Scenario :=
  mkScenario None None None [signer_ok] false None 42 7.

End Sample.

(** ** Reading histories *)

(** The handoff messages among some events: what was written on the
    control stream under [MsgNum_HANDOFF_COMPLETE] or
    [MsgNum_HANDOFF_FAILED]. *)
Definition handoff_messages (evs : list Event) : list (MsgNum * Packet) :=
  flat_map
    (fun ev =>
       match ev with
       | EvWriteControlPacket stream_control MsgNum_HANDOFF_COMPLETE body _ =>
           [(MsgNum_HANDOFF_COMPLETE, body)]
       | EvWriteControlPacket stream_control MsgNum_HANDOFF_FAILED body _ =>
           [(MsgNum_HANDOFF_FAILED, body)]
       | _ => []
       end) evs.

(** How often a signer was asked to sign. *)
Definition signer_invocations (evs : list Event) : nat :=
  List.length
    (filter (fun ev => match ev with EvSign _ _ => true | _ => false end) evs).

(** The credentials carried by the written packets. *)
Definition credentials_sent (evs : list Event) : list Credential :=
  flat_map
    (fun ev =>
       match ev with
       | EvWriteControlPacket _ _ (Packet_resp resp) _ =>
           match resp_Credential resp with
           | Some cred => [cred]
           | None => []
           end
       | _ => []
       end) evs.

(** The request after [checkChallenge] has rewritten its challenge. *)
Definition narrowed (req : CredentialRequest) (challenge : option Challenge)
  : CredentialRequest :=
  mkCredentialRequest (req_Op req) challenge.

(** [&Credential{Op: req.GetOp(), Challenge: req.GetChallenge()}]. *)
Definition new_Credential (req : CredentialRequest) : Credential :=
  mkCredential (req_Op req) (req_Challenge req) [] [] [] "".

(** The write of [CREDENTIAL_RESPONSE{DENIED}]. *)
Definition denied_write (E : Env) (conn : Stream) : Event :=
  EvWriteControlPacket conn MsgNum_CREDENTIAL_RESPONSE (Packet_resp DENIED)
    (proto_Marshal_status E CredentialResponse_DENIED).

Definition approved_write (conn : Stream) (cred : Credential) (b : bytes)
  : Event :=
  EvWriteControlPacket conn MsgNum_CREDENTIAL_RESPONSE
    (Packet_resp (APPROVED cred)) b.

(** What [writeCredentialResponse] makes of the result of the write. *)
Definition write_error (r : option error) : option error :=
  match r with
  | Some e => Some ("Failed to write credential respoinse: " +++ e)
  | None => None
  end.

(** The three ways a credential request can go, with the events each
    leaves behind. *)
Inductive credential_run (E : Env) (conn : Stream) (scope : Scope)
    (req : CredentialRequest) (w : World) : list Event -> Prop :=
| run_blocked e challenge w1 :
    checkChallenge E scope (req_Challenge req) w
    = (Returned (Some e, challenge), w1) ->
    credential_run E conn scope req w [denied_write E conn]
| run_denied e challenge w1 :
    checkChallenge E scope (req_Challenge req) w
    = (Returned (None, challenge), w1) ->
    policy_RequestCredentialApproval E w scope (narrowed req challenge) = Some e ->
    credential_run E conn scope req w
      [EvRequestCredentialApproval scope (narrowed req challenge);
       denied_write E conn]
| run_approved challenge w1 dsign tail :
    checkChallenge E scope (req_Challenge req) w
    = (Returned (None, challenge), w1) ->
    policy_RequestCredentialApproval E w scope (narrowed req challenge) = None ->
    (dsign = [] \/ exists key data, dsign = [EvSign key data]) ->
    (tail = [] \/ tail = [denied_write E conn]
     \/ exists cred b, tail = [approved_write conn cred b]
                       /\ cred_Challenge cred = challenge) ->
    credential_run E conn scope req w
      (EvRequestCredentialApproval scope (narrowed req challenge)
         :: dsign ++ tail).

(** ** Environments with a single fault *)

Module Faults.

(** One thing that goes wrong around an otherwise nominal run. *)
Inductive Fault : Type :=
| algs_unavailable          (* [knownhosts.OrderHostKeyAlgs] fails *)
| proxy_refused             (* [ssh.NewProxyConn] fails *)
| mux_refused               (* [yamux.Server] fails *)
| accept_refused (k : nat)  (* the accept after [k] accepted streams fails *)
| payload_garbled           (* no payload unmarshals *)
| known_hosts_missing.      (* [knownhosts.New] fails *)

Definition accepted (w : World) : nat :=
  List.length
    (filter (fun ev => match ev with EvYamuxAccept => true | _ => false end) w).

Definition env (sc : Sample.Scenario) (f : Fault) : Env :=
  let E := Sample.env sc in
  {| MsgNum_value := MsgNum_value E;
     AgentGuardExtensionType := AgentGuardExtensionType E;
     ssh_Marshal := ssh_Marshal E;
     ssh_Unmarshal_notice :=
       match f with
       | payload_garbled => fun _ => Err "ssh: short read"
       | _ => ssh_Unmarshal_notice E
       end;
     ssh_Unmarshal_execReq :=
       match f with
       | payload_garbled => fun _ => Err "ssh: short read"
       | _ => ssh_Unmarshal_execReq E
       end;
     ssh_Unmarshal_extension := ssh_Unmarshal_extension E;
     proto_Unmarshal_credReq :=
       match f with
       | payload_garbled => fun _ => Err "proto: unexpected EOF"
       | _ => proto_Unmarshal_credReq E
       end;
     proto_Marshal_status := proto_Marshal_status E;
     proto_Marshal_status_cred := proto_Marshal_status_cred E;
     proto_Marshal_cred := proto_Marshal_cred E;
     fmt_resp := fmt_resp E;
     CredentialRequestToString := CredentialRequestToString E;
     write_result := write_result E;
     policy_RequestApproval := policy_RequestApproval E;
     policy_RequestCredentialApproval := policy_RequestCredentialApproval E;
     PublicKey := PublicKey E;
     ssh_ParsePublicKey := ssh_ParsePublicKey E;
     knownhosts_New :=
       match f with
       | known_hosts_missing =>
           fun _ => Err "open known_hosts: no such file or directory"
       | _ => knownhosts_New E
       end;
     knownhosts_OrderHostKeyAlgs :=
       match f with
       | algs_unavailable =>
           fun _ _ => Err "open known_hosts: no such file or directory"
       | _ => knownhosts_OrderHostKeyAlgs E
       end;
     getSigners := getSigners E;
     rand_ReadFull := rand_ReadFull E;
     yamux_Server :=
       match f with
       | mux_refused => fun _ => Some "EOF"
       | _ => yamux_Server E
       end;
     yamux_Accept :=
       match f with
       | accept_refused k =>
           fun w => if Nat.eqb (accepted w) k then Some "session shutdown"
                    else None
       | _ => yamux_Accept E
       end;
     ssh_NewProxyConn :=
       match f with
       | proxy_refused => fun _ => Some "ssh: handshake failed"
       | _ => ssh_NewProxyConn E
       end;
     proxy_done := proxy_done E;
     BytesRead := BytesRead E;
     BufferedFromServer := BufferedFromServer E |}.

End Faults.

(** The streams closed among some events, in order. *)
Definition closed_streams (evs : list Event) : list Stream :=
  flat_map (fun ev => match ev with EvClose s => [s] | _ => [] end) evs.

(** How often the policy was asked about a credential request. *)
Definition credential_prompts (evs : list Event) : nat :=
  List.length
    (filter (fun ev => match ev with
                       | EvRequestCredentialApproval _ _ => true
                       | _ => false
                       end) evs).

(** What [handleExecutionRequest] makes of the result of [proxySSH]. *)
Definition proxy_error (r : option error) : option error :=
  match r with
  | Some e => Some ("Proxy session finished with error: " +++ e)
  | None => None
  end.

(** The credential with its signature fields cleared. *)
Definition unsigned (cred : Credential) : Credential :=
  mkCredential (cred_Op cred) (cred_Challenge cred) (SignerNonce cred)
    (SignatureKey cred) [] "".

(** ** The syscall marshaller

    The second part of the source file is the C++ marshaller of the
    elevation helper: it turns an intercepted system call into the
    argument list of an elevation request and writes the response back
    into the result of the call. *)

Module Marshalls.

(** The constants taken from [<syscall.h>], [<fcntl.h>] and [<unistd.h>],
    with their Linux x86-64 values. *)
Definition SYS_open : Z := 2.
Definition SYS_access : Z := 21.
Definition SYS_socket : Z := 41.
Definition SYS_bind : Z := 49.
Definition SYS_mkdir : Z := 83.
Definition SYS_rmdir : Z := 84.
Definition SYS_unlink : Z := 87.
Definition SYS_symlink : Z := 88.
Definition SYS_openat : Z := 257.
Definition SYS_mkdirat : Z := 258.
Definition SYS_unlinkat : Z := 263.
Definition SYS_symlinkat : Z := 266.
Definition SYS_faccessat : Z := 269.
Definition AT_FDCWD : Z := -100.
Definition AT_REMOVEDIR : Z := 512.
Definition X_OK : Z := 1.

(** [std::experimental::filesystem::perms]. *)
Definition perms_none : Z := 0.
Definition perms_owner_exec : Z := 64.
Definition perms_group_exec : Z := 8.
Definition perms_others_exec : Z := 1.

(** The conversions [(int)x] of a [long] and [(mode_t)x], and the
    negation of an [int]. *)
Definition int_of_long (x : Z) : Z := (x + 2 ^ 31) mod 2 ^ 32 - 2 ^ 31.
Definition mode_t_of_long (x : Z) : Z := x mod 2 ^ 32.
Definition int_neg (x : Z) : Z := int_of_long (- x).

(** The protobuf message [Argument]: at most one of its fields is set. *)
Inductive Argument : Type :=
| Argument_empty
| dir_fd_arg (fd : Z)
| string_arg (s : string)
| int_arg (n : Z)
| fd_arg (fd : Z)
| bytes_arg (b : bytes).

Definition has_fd_arg (arg : Argument) : bool :=
  match arg with
  | fd_arg _ => true
  | _ => false
  end.

(** The protobuf message [ElevationResponse]. *)
Record ElevationResponse : Type := mkResponse {
  errno_code : Z;              (* int *)
  results : list Argument
}.

(** The implementations of [ResultProcessor]. *)
Inductive ResultProcessor : Type :=
| FdProcessor.

(** The classes registered as marshallers; [FromAtSyscall T] is the class
    template applied to [T]. *)
Inductive MarshallClass : Type :=
| OpenAtMarshall
| MkdirAtMarshall
| SymlinkAtMarshall
| SymlinkMarshall
| UnlinkAtMarshall
| UnlinkMarshall
| RmdirMarshall
| FaccessAtMarshall
| AccessMarshall
| SocketMarshall
| BindMarshall
| FromAtSyscall (T : MarshallClass).

(** A [SyscallMarshall] object.  Its [result] member points to the
    caller's [long]; the functions that write through it take and return
    the value of that cell. *)
Record SyscallMarshall : Type := mkMarshall {
  arg0 : Z;
  arg1 : Z;
  arg2 : Z;
  arg3 : Z;
  arg4 : Z;
  arg5 : Z;
  args : list Argument;
  result_processors : list ResultProcessor
}.

Definition set_args (m : SyscallMarshall) (a0 a1 a2 a3 a4 a5 : Z)
  : SyscallMarshall :=
  mkMarshall a0 a1 a2 a3 a4 a5 (args m) (result_processors m).

(** [args.Add()] followed by the setter of one field. *)
Definition args_Add (m : SyscallMarshall) (a : Argument) : SyscallMarshall :=
  mkMarshall (arg0 m) (arg1 m) (arg2 m) (arg3 m) (arg4 m) (arg5 m)
    (args m ++ [a]) (result_processors m).

Definition push_back (m : SyscallMarshall) (p : ResultProcessor)
  : SyscallMarshall :=
  mkMarshall (arg0 m) (arg1 m) (arg2 m) (arg3 m) (arg4 m) (arg5 m)
    (args m) (result_processors m ++ [p]).

Section Process.

(** The memory of the traced process: the C string and the bytes found at
    an address. *)
Variable c_str : Z -> string.
Variable mem : Z -> Z -> bytes.

(** The conversions of a [long] to the types of the protobuf fields [fd]
    and [int_arg], whose declarations are generated from a file that is
    not part of the sources. *)
Variable as_fd : Z -> Z.
Variable as_int : Z -> Z.

(** [fs::status(path).permissions()].  [status] is the overload that
    throws [filesystem_error] when the file cannot be examined, which is
    [None]; a file that does not exist is no error and has the permissions
    [perms::unknown]. *)
Variable permissions : string -> option Z.

Definition OpenAtMarshall_Prepare (m : SyscallMarshall) : SyscallMarshall :=
  let m := args_Add m (dir_fd_arg (as_fd (arg0 m))) in
  let m := args_Add m (string_arg (c_str (arg1 m))) in
  let m := args_Add m (int_arg (as_int (arg2 m))) in
  let m := args_Add m (int_arg (as_int (arg3 m))) in
  push_back m FdProcessor.

Definition MkdirAtMarshall_Prepare (m : SyscallMarshall) : SyscallMarshall :=
  let m := args_Add m (dir_fd_arg (as_fd (arg0 m))) in
  let m := args_Add m (string_arg (c_str (arg1 m))) in
  args_Add m (int_arg (as_int (arg2 m))).

Definition SymlinkAtMarshall_Prepare (m : SyscallMarshall) : SyscallMarshall :=
  let m := args_Add m (string_arg (c_str (arg0 m))) in
  let m := args_Add m (dir_fd_arg (as_fd (arg1 m))) in
  args_Add m (string_arg (c_str (arg2 m))).

Definition SymlinkMarshall_Prepare (m : SyscallMarshall) : SyscallMarshall :=
  let m := set_args m (arg0 m) (arg1 m) (arg1 m) (arg3 m) (arg4 m) (arg5 m) in
  let m := set_args m (arg0 m) AT_FDCWD (arg2 m) (arg3 m) (arg4 m) (arg5 m) in
  SymlinkAtMarshall_Prepare m.

Definition UnlinkAtMarshall_Prepare (m : SyscallMarshall) : SyscallMarshall :=
  let m := args_Add m (dir_fd_arg (as_fd (arg0 m))) in
  let m := args_Add m (string_arg (c_str (arg1 m))) in
  args_Add m (int_arg (as_int (arg2 m))).

Definition UnlinkMarshall_Prepare (m : SyscallMarshall) : SyscallMarshall :=
  let m := set_args m (arg0 m) (arg1 m) 0 (arg3 m) (arg4 m) (arg5 m) in
  let m := set_args m (arg0 m) (arg0 m) (arg2 m) (arg3 m) (arg4 m) (arg5 m) in
  let m := set_args m AT_FDCWD (arg1 m) (arg2 m) (arg3 m) (arg4 m) (arg5 m) in
  UnlinkAtMarshall_Prepare m.

Definition RmdirMarshall_Prepare (m : SyscallMarshall) : SyscallMarshall :=
  let m := set_args m (arg0 m) (arg1 m) AT_REMOVEDIR (arg3 m) (arg4 m) (arg5 m) in
  let m := set_args m (arg0 m) (arg0 m) (arg2 m) (arg3 m) (arg4 m) (arg5 m) in
  let m := set_args m AT_FDCWD (arg1 m) (arg2 m) (arg3 m) (arg4 m) (arg5 m) in
  UnlinkAtMarshall_Prepare m.

Definition FaccessAtMarshall_Prepare (m : SyscallMarshall) : SyscallMarshall :=
  let m := args_Add m (dir_fd_arg (as_fd (arg0 m))) in
  let m := args_Add m (string_arg (c_str (arg1 m))) in
  let m := args_Add m (int_arg (as_int (arg2 m))) in
  args_Add m (int_arg (as_int (arg3 m))).

Definition AccessMarshall_Prepare (m : SyscallMarshall) : SyscallMarshall :=
  let m := set_args m (arg0 m) (arg1 m) (arg2 m) 0 (arg4 m) (arg5 m) in
  let m := set_args m (arg0 m) (arg1 m) (arg1 m) (arg3 m) (arg4 m) (arg5 m) in
  let m := set_args m (arg0 m) (arg0 m) (arg2 m) (arg3 m) (arg4 m) (arg5 m) in
  let m := set_args m AT_FDCWD (arg1 m) (arg2 m) (arg3 m) (arg4 m) (arg5 m) in
  FaccessAtMarshall_Prepare m.

Definition SocketMarshall_Prepare (m : SyscallMarshall) : SyscallMarshall :=
  let m := args_Add m (int_arg (as_int (arg0 m))) in
  let m := args_Add m (int_arg (as_int (arg1 m))) in
  let m := args_Add m (int_arg (as_int (arg2 m))) in
  push_back m FdProcessor.

Definition BindMarshall_Prepare (m : SyscallMarshall) : SyscallMarshall :=
  let m := args_Add m (fd_arg (as_fd (arg0 m))) in
  args_Add m (bytes_arg (mem (arg1 m) (arg2 m))).

(** The assignments of [FromAtSyscall<T>::Prepare], in their order: each
    argument moves up by one and the first becomes [AT_FDCWD]. *)
Definition FromAtSyscall_shift (m : SyscallMarshall) : SyscallMarshall :=
  let m := set_args m (arg0 m) (arg1 m) (arg2 m) (arg3 m) (arg4 m) (arg4 m) in
  let m := set_args m (arg0 m) (arg1 m) (arg2 m) (arg3 m) (arg3 m) (arg5 m) in
  let m := set_args m (arg0 m) (arg1 m) (arg2 m) (arg2 m) (arg4 m) (arg5 m) in
  let m := set_args m (arg0 m) (arg1 m) (arg1 m) (arg3 m) (arg4 m) (arg5 m) in
  let m := set_args m (arg0 m) (arg0 m) (arg2 m) (arg3 m) (arg4 m) (arg5 m) in
  set_args m AT_FDCWD (arg1 m) (arg2 m) (arg3 m) (arg4 m) (arg5 m).

(** The call [marshall->Prepare()] in [New].  The base class is declared
    in a header that is not part of the sources; [Prepare] is taken to be
    virtual there, as a registry of factories for distinct classes needs. *)
Fixpoint Prepare (cls : MarshallClass) (m : SyscallMarshall) : SyscallMarshall :=
  match cls with
  | OpenAtMarshall => OpenAtMarshall_Prepare m
  | MkdirAtMarshall => MkdirAtMarshall_Prepare m
  | SymlinkAtMarshall => SymlinkAtMarshall_Prepare m
  | SymlinkMarshall => SymlinkMarshall_Prepare m
  | UnlinkAtMarshall => UnlinkAtMarshall_Prepare m
  | UnlinkMarshall => UnlinkMarshall_Prepare m
  | RmdirMarshall => RmdirMarshall_Prepare m
  | FaccessAtMarshall => FaccessAtMarshall_Prepare m
  | AccessMarshall => AccessMarshall_Prepare m
  | SocketMarshall => SocketMarshall_Prepare m
  | BindMarshall => BindMarshall_Prepare m
  | FromAtSyscall T => Prepare T (FromAtSyscall_shift m)
  end.

(** [FaccessAtMarshall::ShouldHook], which [AccessMarshall] inherits;
    [None] is the exception of [fs::status] leaving the function. *)
Definition FaccessAtMarshall_ShouldHook (m : SyscallMarshall) : option bool :=
  let mode := mode_t_of_long (arg2 m) in
  if mode =? X_OK then
    match permissions (c_str (arg1 m)) with
    | None => None
    | Some p =>
        if (Z.land p perms_owner_exec =? perms_none)
           && (Z.land p perms_group_exec =? perms_none)
           && (Z.land p perms_others_exec =? perms_none)
        then Some false
        else Some true
    end
  else Some true.

(** *** The registry *)

(** [SyscallMarshall::registry], from syscall number to factory. *)
Definition Registry := list (Z * MarshallClass).

Fixpoint registry_find (r : Registry) (n : Z) : option MarshallClass :=
  match r with
  | [] => None
  | (k, cls) :: r' => if k =? n then Some cls else registry_find r' n
  end.

(** The constructor of [Registrar<T>]: the assertion fails when the number
    is registered already. *)
Definition Registrar (r : Registry) (syscall_number : Z) (cls : MarshallClass)
  : option Registry :=
  match registry_find r syscall_number with
  | Some _ => None
  | None => Some ((syscall_number, cls) :: r)
  end.

(** The uses of [REGISTER_SYSCALL_MARSHAL], in the order of the file. *)
Definition registrations : list (Z * MarshallClass) :=
  [(SYS_openat, OpenAtMarshall);
   (SYS_open, FromAtSyscall OpenAtMarshall);
   (SYS_mkdirat, MkdirAtMarshall);
   (SYS_mkdir, FromAtSyscall MkdirAtMarshall);
   (SYS_symlinkat, SymlinkAtMarshall);
   (SYS_symlink, SymlinkMarshall);
   (SYS_unlinkat, UnlinkAtMarshall);
   (SYS_unlink, UnlinkMarshall);
   (SYS_rmdir, RmdirMarshall);
   (SYS_faccessat, FaccessAtMarshall);
   (SYS_access, AccessMarshall);
   (SYS_socket, SocketMarshall);
   (SYS_bind, BindMarshall)].

(** The registry after static initialisation, if no assertion failed. *)
Definition registered (regs : list (Z * MarshallClass)) : option Registry :=
  fold_left
    (fun r reg =>
       match r with
       | Some r => Registrar r (fst reg) (snd reg)
       | None => None
       end) regs (Some []).

(** The registry the program starts with. *)
Definition static_registry : Registry :=
  match registered registrations with
  | Some r => r
  | None => []
  end.

(** [SyscallMarshall::New]; [None] is [nullptr]. *)
Definition New (registry : Registry)
    (syscall_number a0 a1 a2 a3 a4 a5 : Z) : option SyscallMarshall :=
  match registry_find registry (int_of_long syscall_number) with
  | None => None
  | Some cls => Some (Prepare cls (mkMarshall a0 a1 a2 a3 a4 a5 [] []))
  end.

End Process.

(** The calls registered with a marshaller that expects a descriptor
    back. *)
Definition returns_descriptor (syscall_number : Z) : bool :=
  let n := int_of_long syscall_number in
  (n =? SYS_openat) || (n =? SYS_open) || (n =? SYS_socket).

(** A small process to run the marshaller on: [/bin/ls] (mode 0755) is
    named at address 4096, [/root/secret], which the process may not
    examine, at address 12288, and [/etc/passwd] (mode 0644) everywhere
    else. *)
Definition sample_c_str (addr : Z) : string :=
  if addr =? 4096 then "/bin/ls"
  else if addr =? 12288 then "/root/secret"
  else "/etc/passwd".

Definition sample_permissions (path : string) : option Z :=
  if String.eqb path "/bin/ls" then Some 493
  else if String.eqb path "/root/secret" then None
  else Some 420.

Definition sample_mem (addr len : Z) : bytes := repeat x00 (Z.to_nat len).

(** *** Responses *)

(** [ResultProcessor::Process]: the verdict and the value left in
    [*result]. *)
Definition Process (p : ResultProcessor) (arg : Argument) (result : Z)
  : bool * Z :=
  match p with
  | FdProcessor =>
      if negb (has_fd_arg arg) then (false, result)
      else match arg with
           | fd_arg fd => (true, fd)
           | _ => (true, result)
           end
  end.

(** The [for] loop of [ProcessResponse], over the results still to be
    processed and the processors from index [i] on. *)
Fixpoint ProcessResponse_loop (processors : list ResultProcessor)
    (rs : list Argument) (result : Z) : Z :=
  match rs, processors with
  | r :: rs', p :: processors' =>
      let (ok, result) := Process p r result in
      ProcessResponse_loop processors' rs' (if ok then result else -1)
  | _, _ => result
  end.

(** [SyscallMarshall::ProcessResponse]: the value of [*result] after the
    call, given its value before. *)
Definition ProcessResponse (m : SyscallMarshall) (response : ElevationResponse)
    (result : Z) : Z :=
  let result := int_neg (errno_code response) in
  if Z.of_nat (List.length (result_processors m))
     <? Z.of_nat (List.length (results response))
  then -1
  else ProcessResponse_loop (result_processors m) (results response) result.

End Marshalls.

(** * Properties *)

(** ** Handoff accounting *)

Lemma uint32_int_sub (a b : Z) : uint32 (int_sub a b) = (a - b) mod 2 ^ 32.
Proof.
  unfold uint32, int_sub, int_wrap.
  pose proof (Z.div_mod (a - b + 2 ^ 63) (2 ^ 64) ltac:(lia)) as D.
  set (q := (a - b + 2 ^ 63) / 2 ^ 64) in *.
  replace ((a - b + 2 ^ 63) mod 2 ^ 64 - 2 ^ 63)
    with (a - b + (- q * 2 ^ 32) * 2 ^ 32) by lia.
  apply Z_mod_plus_full.
Qed.

Lemma handoffMessage_complete (bytesRead buffered : Z) :
  handoffMessage None bytesRead buffered =
  (MsgNum_HANDOFF_COMPLETE,
   HandoffCompleteMessage ((bytesRead - buffered) mod 2 ^ 32)).
Proof. unfold handoffMessage. now rewrite uint32_int_sub. Qed.

(** Once the proxy has been set up, [proxySSH] runs it and writes the
    chosen message; that write is all it does afterwards. *)
Lemma proxySSH_ran (E : Env) (scope : Scope) (w : World) (algs : list string) :
  let w1 := w ++ [EvNewProxyConn (ServiceHostname scope)
                                 (ServiceUsername scope) algs] in
  let w2 := w1 ++ [EvProxyRun] in
  let m := handoffMessage (proxy_done E w1) (BytesRead E w2)
                          (BufferedFromServer E w2) in
  knownhosts_OrderHostKeyAlgs E w (ServiceHostname scope) = Ok algs ->
  ssh_NewProxyConn E w = None ->
  proxySSH E scope w =
  (Returned (write_result E w2 stream_control (fst m) (ssh_Marshal E (snd m))),
   w2 ++ [EvWriteControlPacket stream_control (fst m) (Packet_ssh (snd m))
                               (ssh_Marshal E (snd m))]).
Proof.
  intros w1 w2 m Halgs Hnew.
  unfold proxySSH, bind, ask, WriteControlPacket.
  rewrite Halgs, Hnew. fold w1. fold w2. fold m.
  destruct m as [msgNum msg]. reflexivity.
Qed.

(** When the set-up fails, [proxySSH] returns the error and the control
    stream stays silent. *)
Lemma proxySSH_setup_failure (E : Env) (scope : Scope) (w : World) :
  (forall e, knownhosts_OrderHostKeyAlgs E w (ServiceHostname scope) = Err e ->
     proxySSH E scope w =
     (Returned
        (Some ("Failed to extract host key algorithms from known_hosts: " +++ e)),
      w))
  /\ (forall algs e,
        knownhosts_OrderHostKeyAlgs E w (ServiceHostname scope) = Ok algs ->
        ssh_NewProxyConn E w = Some e ->
        proxySSH E scope w =
        (Returned (Some e),
         w ++ [EvNewProxyConn (ServiceHostname scope)
                              (ServiceUsername scope) algs])).
Proof.
  split.
  - intros e H. unfold proxySSH, bind, ask. now rewrite H.
  - intros algs e H1 H2. unfold proxySSH, bind, ask. now rewrite H1, H2.
Qed.

(** C1, as the code has it: in every successful proxy run the
    [HANDOFF_COMPLETE] message written on the control stream carries the
    bytes read from the server minus the bytes still buffered, reduced
    modulo [2^32] by the conversion to [uint32]; it is that difference
    itself whenever the difference fits in 32 bits. *)
Theorem handoff_offset_mod (E : Env) (scope : Scope) (w : World)
    (algs : list string) :
  let w1 := w ++ [EvNewProxyConn (ServiceHostname scope)
                                 (ServiceUsername scope) algs] in
  let w2 := w1 ++ [EvProxyRun] in
  let d := BytesRead E w2 - BufferedFromServer E w2 in
  let msg := HandoffCompleteMessage (d mod 2 ^ 32) in
  knownhosts_OrderHostKeyAlgs E w (ServiceHostname scope) = Ok algs ->
  ssh_NewProxyConn E w = None ->
  proxy_done E w1 = None ->
  proxySSH E scope w =
  (Returned (write_result E w2 stream_control MsgNum_HANDOFF_COMPLETE
                          (ssh_Marshal E msg)),
   w2 ++ [EvWriteControlPacket stream_control MsgNum_HANDOFF_COMPLETE
                               (Packet_ssh msg) (ssh_Marshal E msg)])
  /\ (0 <= d < 2 ^ 32 -> d mod 2 ^ 32 = d).
Proof.
  intros w1 w2 d msg Halgs Hnew Hdone. split.
  - rewrite (proxySSH_ran E scope w algs Halgs Hnew).
    fold w1. fold w2. rewrite Hdone, handoffMessage_complete. reflexivity.
  - intros Hd. now apply Z.mod_small.
Qed.

Lemma handoff_offset_mod_witness :
  proxySSH (Sample.env Sample.nominal) Sample.session [] =
  (Returned None,
   [EvNewProxyConn "srv.example" "alice" ["ssh-ed25519"]; EvProxyRun;
    EvWriteControlPacket stream_control MsgNum_HANDOFF_COMPLETE
      (Packet_ssh (HandoffCompleteMessage 35)) [x00; x00; x00; x23]])
  /\ (0 <= 42 - 7 < 2 ^ 32 -> (42 - 7) mod 2 ^ 32 = 42 - 7).
Proof.
  exact (handoff_offset_mod (Sample.env Sample.nominal) Sample.session []
           ["ssh-ed25519"] eq_refl eq_refl eq_refl).
Defined.

(** C1, as stated, fails: after 4294967338 bytes read with 7 still
    buffered the proxy run succeeds and [HANDOFF_COMPLETE] carries 35, not
    the difference 4294967331. *)
Lemma handoff_offset_wraps :
  proxySSH (Sample.env Sample.long_handshake) Sample.session [] =
  (Returned None,
   [EvNewProxyConn "srv.example" "alice" ["ssh-ed25519"]; EvProxyRun;
    EvWriteControlPacket stream_control MsgNum_HANDOFF_COMPLETE
      (Packet_ssh (HandoffCompleteMessage 35)) [x00; x00; x00; x23]])
  /\ BytesRead (Sample.env Sample.long_handshake) [] = 4294967338
  /\ BufferedFromServer (Sample.env Sample.long_handshake) [] = 7
  /\ 35 <> 4294967338 - 7.
Proof. repeat split. vm_compute. discriminate. Qed.

(** Whenever [proxySSH] gets to run the proxy, exactly one handoff
    message is written on the control stream: [HANDOFF_FAILED] carrying
    the error text when the run ended with an error, [HANDOFF_COMPLETE]
    when it did not. *)
Theorem handoff_exactly_one (E : Env) (scope : Scope) (w : World)
    (algs : list string) :
  let w1 := w ++ [EvNewProxyConn (ServiceHostname scope)
                                 (ServiceUsername scope) algs] in
  knownhosts_OrderHostKeyAlgs E w (ServiceHostname scope) = Ok algs ->
  ssh_NewProxyConn E w = None ->
  exists result delta,
    proxySSH E scope w = (Returned result, w ++ delta)
    /\ In EvProxyRun delta
    /\ match proxy_done E w1 with
       | Some e =>
           handoff_messages delta =
           [(MsgNum_HANDOFF_FAILED, Packet_ssh (HandoffFailedMessage e))]
       | None =>
           exists n,
           handoff_messages delta =
           [(MsgNum_HANDOFF_COMPLETE, Packet_ssh (HandoffCompleteMessage n))]
       end.
Proof.
  intros w1 Halgs Hnew.
  rewrite (proxySSH_ran E scope w algs Halgs Hnew). fold w1.
  destruct (proxy_done E w1) as [e|]; cbn [handoffMessage fst snd];
    unfold w1; rewrite <- !app_assoc; cbn [app];
    eexists; eexists; (split; [reflexivity|]);
    (split; [simpl; auto|]); simpl; eauto.
Qed.

Lemma handoff_exactly_one_witness :
  exists result delta,
    proxySSH (Sample.env Sample.failed_handshake) Sample.session [] =
    (Returned result, [] ++ delta)
    /\ In EvProxyRun delta
    /\ handoff_messages delta =
       [(MsgNum_HANDOFF_FAILED,
         Packet_ssh (HandoffFailedMessage "ssh: handshake failed"))].
Proof.
  exact (handoff_exactly_one (Sample.env Sample.failed_handshake) Sample.session []
           ["ssh-ed25519"] eq_refl eq_refl).
Defined.

(** C4 on the code, for every call of [proxySSH]: when the proxy is run,
    exactly one handoff message is written, [HANDOFF_FAILED] with the
    error text after a failed run and [HANDOFF_COMPLETE] otherwise; when
    the host key algorithms cannot be extracted or the proxy connection
    cannot be set up, the call returns an error and writes neither
    message. *)
Theorem handoff_messages_per_call (E : Env) (scope : Scope) (w : World) :
  exists result delta,
    proxySSH E scope w = (Returned result, w ++ delta)
    /\ match knownhosts_OrderHostKeyAlgs E w (ServiceHostname scope) with
       | Err e =>
           result
           = Some ("Failed to extract host key algorithms from known_hosts: "
                   +++ e)
           /\ handoff_messages delta = []
       | Ok algs =>
           match ssh_NewProxyConn E w with
           | Some e => result = Some e /\ handoff_messages delta = []
           | None =>
               match proxy_done E
                       (w ++ [EvNewProxyConn (ServiceHostname scope)
                                             (ServiceUsername scope) algs])
               with
               | Some e =>
                   handoff_messages delta
                   = [(MsgNum_HANDOFF_FAILED,
                       Packet_ssh (HandoffFailedMessage e))]
               | None =>
                   exists n,
                     handoff_messages delta
                     = [(MsgNum_HANDOFF_COMPLETE,
                         Packet_ssh (HandoffCompleteMessage n))]
               end
           end
       end.
Proof.
  destruct (proxySSH_setup_failure E scope w) as [Halgs Hnew].
  destruct (knownhosts_OrderHostKeyAlgs E w (ServiceHostname scope))
    as [algs|e] eqn:Ha.
  - destruct (ssh_NewProxyConn E w) as [e|] eqn:Hn.
    + rewrite (Hnew algs e eq_refl eq_refl).
      eexists. eexists. split; [reflexivity|]. split; reflexivity.
    + rewrite (proxySSH_ran E scope w algs Ha Hn).
      destruct (proxy_done E _) as [e|]; cbn [handoffMessage fst snd];
        rewrite <- !app_assoc; cbn [app];
        eexists; eexists; (split; [reflexivity|]); simpl; eauto.
  - rewrite (Halgs e eq_refl).
    eexists. exists []. rewrite app_nil_r. split; [reflexivity|].
    split; reflexivity.
Qed.

(** The failing input of C4: the SSH handshake with the server fails
    while the proxy connection is set up; the session ends with an error
    and the stub is sent no [HANDOFF_FAILED]. *)
Example handoff_missing_after_refused_proxy :
  proxySSH (Faults.env Sample.nominal Faults.proxy_refused) Sample.session []
  = (Returned (Some "ssh: handshake failed"),
     [EvNewProxyConn "srv.example" "alice" ["ssh-ed25519"]])
  /\ handoff_messages
       [EvNewProxyConn "srv.example" "alice" ["ssh-ed25519"]] = [].
Proof. split; reflexivity. Qed.

(** ** Challenge verification *)

Section Challenge.

Variable E : Env.
Variable kh : string -> PublicKey E -> option error.
Variable scope : Scope.

(** The loop returns the first candidate that parses and matches, and
    nothing when there is none. *)
Lemma checkChallenge_loop_first (keys : list bytes) :
  match checkChallenge_loop E kh scope keys with
  | Some k =>
      exists bad rest,
        keys = bad ++ k :: rest
        /\ Forall (fun x => candidate_ok E kh scope x = false) bad
        /\ candidate_ok E kh scope k = true
  | None => Forall (fun x => candidate_ok E kh scope x = false) keys
  end.
Proof.
  induction keys as [|pk keys IH]; simpl.
  - constructor.
  - destruct (candidate_ok E kh scope pk) eqn:Hpk.
    + exists [], keys. auto.
    + destruct (checkChallenge_loop E kh scope keys) as [k|].
      * destruct IH as (bad & rest & -> & Hbad & Hk).
        exists (pk :: bad), rest. auto.
      * auto.
Qed.

(** Candidates that fail are passed over. *)
Lemma checkChallenge_loop_skip (bad : list bytes) (k : bytes) (rest : list bytes) :
  Forall (fun x => candidate_ok E kh scope x = false) bad ->
  candidate_ok E kh scope k = true ->
  checkChallenge_loop E kh scope (bad ++ k :: rest) = Some k.
Proof.
  intros Hbad Hk. induction Hbad as [|x bad Hx _ IH]; simpl.
  - now rewrite Hk.
  - now rewrite Hx.
Qed.

Lemma unparsable_not_ok (pkBytes : bytes) :
  ssh_ParsePublicKey E pkBytes = None -> candidate_ok E kh scope pkBytes = false.
Proof. intros H. unfold candidate_ok. now rewrite H. Qed.

End Challenge.

(** [checkChallenge] by cases; it leaves the history as it is. *)
Lemma checkChallenge_cases (E : Env) (scope : Scope)
    (challenge : option Challenge) (w : World) :
  checkChallenge E scope challenge w =
  match knownhosts_New E w with
  | Err e => (Returned (Some ("Failed to get known hosts: " +++ e), challenge), w)
  | Ok kh =>
      match checkChallenge_loop E kh scope (GetServerPublicKeys challenge) with
      | Some k => (Returned (None, Some (mkChallenge [k])), w)
      | None =>
          (Returned
             (Some "Could not verify server public key against known_hosts",
              challenge), w)
      end
  end.
Proof.
  unfold checkChallenge, bind, ask.
  destruct (knownhosts_New E w) as [kh|e]; [|reflexivity].
  destruct challenge as [c|]; simpl.
  - destruct (checkChallenge_loop E kh scope (ServerPublicKeys c)); reflexivity.
  - reflexivity.
Qed.

(** C10: a candidate that does not parse is passed over without an error
    and the candidates after it are still tested; verification fails only
    when no candidate both parses and matches [known_hosts], and then the
    challenge keeps its key list. *)
Theorem unparsable_candidates_skipped (E : Env) (scope : Scope)
    (challenge : option Challenge) (w : World) :
  (forall kh bad k rest,
      knownhosts_New E w = Ok kh ->
      GetServerPublicKeys challenge = bad ++ k :: rest ->
      Forall (fun x => ssh_ParsePublicKey E x = None) bad ->
      candidate_ok E kh scope k = true ->
      checkChallenge E scope challenge w =
      (Returned (None, Some (mkChallenge [k])), w))
  /\ (forall e challenge' w',
         checkChallenge E scope challenge w = (Returned (Some e, challenge'), w') ->
         challenge' = challenge
         /\ forall kh, knownhosts_New E w = Ok kh ->
              Forall (fun x => candidate_ok E kh scope x = false)
                     (GetServerPublicKeys challenge)).
Proof.
  split.
  - intros kh bad k rest Hkh Hkeys Hbad Hk.
    rewrite checkChallenge_cases, Hkh, Hkeys.
    rewrite checkChallenge_loop_skip; auto.
    eapply Forall_impl; [|exact Hbad]. apply unparsable_not_ok.
  - intros e challenge' w'. rewrite checkChallenge_cases.
    destruct (knownhosts_New E w) as [kh|e0].
    + pose proof (checkChallenge_loop_first E kh scope
                    (GetServerPublicKeys challenge)) as Hloop.
      destruct (checkChallenge_loop E kh scope (GetServerPublicKeys challenge));
        intros H; inversion H; subst.
      split; [reflexivity|]. intros kh' Hkh'. now inversion Hkh'; subst.
    + intros H; inversion H; subst. split; [reflexivity|]. discriminate.
Qed.

Lemma unparsable_candidates_skipped_witness :
  checkChallenge (Sample.env Sample.nominal) Sample.laptop
    (Some (mkChallenge [[xff]; []; [x2a]; [x07]])) [] =
  (Returned (None, Some (mkChallenge [[x2a]])), [])
  /\ (Some (mkChallenge [[x07]; [xff]]) = Some (mkChallenge [[x07]; [xff]])
      /\ forall kh,
           knownhosts_New (Sample.env Sample.nominal) [] = Ok kh ->
           Forall (fun x => candidate_ok (Sample.env Sample.nominal) kh
                              Sample.laptop x = false)
                  [[x07]; [xff]]).
Proof.
  split.
  - apply (proj1 (unparsable_candidates_skipped (Sample.env Sample.nominal)
                    Sample.laptop
                    (Some (mkChallenge [[xff]; []; [x2a]; [x07]])) [])
             Sample.known_hosts [[xff]; []] [x2a] [[x07]]).
    + reflexivity.
    + reflexivity.
    + repeat constructor.
    + reflexivity.
  - apply (proj2 (unparsable_candidates_skipped (Sample.env Sample.nominal)
                    Sample.laptop (Some (mkChallenge [[x07]; [xff]])) [])
             "Could not verify server public key against known_hosts"
             (Some (mkChallenge [[x07]; [xff]])) []).
    reflexivity.
Defined.

(** ** Credential issuance *)

Ltac unfold_agent :=
  unfold handleCredentialRequest, writeCredentialResponse,
    policy_call_RequestCredentialApproval, WriteControlPacket,
    signer_call_Sign, proto_Marshal_resp, bind, ret, ask, emit, panic.

Lemma writeCredentialResponse_DENIED (E : Env) (conn : Stream) (w : World) :
  writeCredentialResponse E conn DENIED w =
  (Returned
     (write_error
        (write_result E w conn MsgNum_CREDENTIAL_RESPONSE
           (proto_Marshal_status E CredentialResponse_DENIED))),
   w ++ [denied_write E conn]).
Proof.
  unfold_agent. simpl.
  destruct (write_result E w conn MsgNum_CREDENTIAL_RESPONSE _); reflexivity.
Qed.

Lemma writeCredentialResponse_APPROVED (E : Env) (conn : Stream)
    (cred : Credential) (w : World) :
  writeCredentialResponse E conn (APPROVED cred) w =
  match proto_Marshal_status_cred E CredentialResponse_APPROVED cred with
  | Err e =>
      (Returned (Some ("Failed to marshal credential response: " +++ e +++ ", "
                       +++ fmt_resp E (APPROVED cred))), w)
  | Ok b =>
      (Returned (write_error (write_result E w conn MsgNum_CREDENTIAL_RESPONSE b)),
       w ++ [approved_write conn cred b])
  end.
Proof.
  unfold_agent. simpl.
  destruct (proto_Marshal_status_cred E CredentialResponse_APPROVED cred) as [b|e];
    [|reflexivity].
  destruct (write_result E w conn MsgNum_CREDENTIAL_RESPONSE b); reflexivity.
Qed.

(** [signCredential] by cases on what the environment answers. *)
Lemma signCredential_cases (E : Env) (cred : Credential) (w : World) :
  signCredential E cred w =
  match getSigners E w with
  | [] => (Panicked "index out of range [0] with length 0", w)
  | signer :: _ =>
      match rand_ReadFull E w 32 with
      | Err e => (Returned (Some e, cred), w)
      | Ok nonce =>
          let cred1 :=
            mkCredential (cred_Op cred) (cred_Challenge cred) nonce
              (PublicKey_Marshal signer) (Signature cred) (SignatureFormat cred) in
          match proto_Marshal_cred E cred1 with
          | Err e => (Returned (Some e, cred1), w)
          | Ok data =>
              match Sign signer w data with
              | Err e =>
                  (Returned (Some e, cred1),
                   w ++ [EvSign (PublicKey_Marshal signer) data])
              | Ok sig =>
                  (Returned
                     (None,
                      mkCredential (cred_Op cred) (cred_Challenge cred) nonce
                        (PublicKey_Marshal signer) (Blob sig) (Format sig)),
                   w ++ [EvSign (PublicKey_Marshal signer) data])
              end
          end
      end
  end.
Proof.
  unfold signCredential, signer_call_Sign, bind, ret, ask, panic.
  destruct (getSigners E w) as [|signer others]; [reflexivity|].
  destruct (rand_ReadFull E w 32) as [nonce|e]; [|reflexivity].
  simpl.
  destruct (proto_Marshal_cred E _) as [data|e]; [|reflexivity].
  destruct (Sign signer w data); reflexivity.
Qed.

(** [signCredential] adds at most one event, a signer invocation, and
    keeps the operation and the challenge of the credential. *)
Lemma signCredential_trace (E : Env) (cred : Credential) (w : World)
    (o : Outcome (option error * Credential)) (w' : World) :
  signCredential E cred w = (o, w') ->
  (w' = w \/ exists key data, w' = w ++ [EvSign key data])
  /\ forall err cred',
       o = Returned (err, cred') ->
       cred_Op cred' = cred_Op cred /\ cred_Challenge cred' = cred_Challenge cred.
Proof.
  rewrite signCredential_cases.
  destruct (getSigners E w) as [|signer others].
  { intros H; inversion H; subst. split; [auto|discriminate]. }
  destruct (rand_ReadFull E w 32) as [nonce|e].
  2:{ intros H; inversion H; subst. split; [auto|].
      intros err cred' H'; inversion H'; auto. }
  cbv zeta.
  destruct (proto_Marshal_cred E _) as [data|e].
  2:{ intros H; inversion H; subst. split; [auto|].
      intros err cred' H'; inversion H'; auto. }
  destruct (Sign signer w data) as [sig|e];
    intros H; inversion H; subst;
    (split; [right; eauto|]);
    intros err cred' H'; inversion H'; auto.
Qed.

Section CredentialPaths.

Variable E : Env.
Variable conn : Stream.
Variable scope : Scope.
Variable req : CredentialRequest.
Variable w : World.

Lemma narrowed_same : narrowed req (req_Challenge req) = req.
Proof. now destruct req. Qed.

(** Challenge verification failed. *)
Lemma handleCredentialRequest_blocked (e : error) (challenge : option Challenge)
    (w1 : World) :
  checkChallenge E scope (req_Challenge req) w = (Returned (Some e, challenge), w1) ->
  handleCredentialRequest E conn scope req w =
  (Returned (Some ("request BLOCKED due to invalid challenge: " +++ e), req),
   w ++ [denied_write E conn]).
Proof.
  intros H.
  assert (challenge = req_Challenge req /\ w1 = w) as [-> ->].
  { revert H. rewrite checkChallenge_cases.
    destruct (knownhosts_New E w) as [kh|e0].
    - destruct (checkChallenge_loop E kh scope _);
        intros H; inversion H; auto.
    - intros H; inversion H; auto. }
  unfold handleCredentialRequest, bind at 1. rewrite H.
  fold (narrowed req (req_Challenge req)). rewrite narrowed_same.
  unfold bind, ret. rewrite writeCredentialResponse_DENIED. reflexivity.
Qed.

(** Challenge verification passed and the policy denied. *)
Lemma handleCredentialRequest_denied (e : error) (challenge : option Challenge)
    (w1 : World) :
  let req' := narrowed req challenge in
  let w2 := w ++ [EvRequestCredentialApproval scope req'] in
  checkChallenge E scope (req_Challenge req) w = (Returned (None, challenge), w1) ->
  policy_RequestCredentialApproval E w scope req' = Some e ->
  handleCredentialRequest E conn scope req w =
  (Returned
     (write_error
        (write_result E w2 conn MsgNum_CREDENTIAL_RESPONSE
           (proto_Marshal_status E CredentialResponse_DENIED)), req'),
   w2 ++ [denied_write E conn]).
Proof.
  intros req' w2 H Hp.
  assert (w1 = w) as ->.
  { revert H. rewrite checkChallenge_cases.
    destruct (knownhosts_New E w) as [kh|e0].
    - destruct (checkChallenge_loop E kh scope _);
        intros H; inversion H; auto.
    - intros H; inversion H; auto. }
  unfold handleCredentialRequest, bind at 1. rewrite H.
  fold (narrowed req challenge). fold req'.
  unfold policy_call_RequestCredentialApproval, bind at 1. rewrite Hp.
  fold w2. unfold bind, ret. rewrite writeCredentialResponse_DENIED. reflexivity.
Qed.

(** Both passed: the handler goes on with [signCredential] and answers
    from its result. *)
Lemma handleCredentialRequest_approved (challenge : option Challenge)
    (w1 : World) :
  let req' := narrowed req challenge in
  let w2 := w ++ [EvRequestCredentialApproval scope req'] in
  checkChallenge E scope (req_Challenge req) w = (Returned (None, challenge), w1) ->
  policy_RequestCredentialApproval E w scope req' = None ->
  handleCredentialRequest E conn scope req w =
  match signCredential E (new_Credential req') w2 with
  | (Panicked reason, w3) => (Panicked reason, w3)
  | (Returned (Some e, _), w3) =>
      (Returned (Some ("Failed to sign credential: " +++ e), req'),
       w3 ++ [denied_write E conn])
  | (Returned (None, cred), w3) =>
      match writeCredentialResponse E conn (APPROVED cred) w3 with
      | (Returned err, w4) => (Returned (err, req'), w4)
      | (Panicked reason, w4) => (Panicked reason, w4)
      end
  end.
Proof.
  intros req' w2 H Hp.
  assert (w1 = w) as ->.
  { revert H. rewrite checkChallenge_cases.
    destruct (knownhosts_New E w) as [kh|e0].
    - destruct (checkChallenge_loop E kh scope _);
        intros H; inversion H; auto.
    - intros H; inversion H; auto. }
  unfold handleCredentialRequest, bind at 1. rewrite H.
  fold (narrowed req challenge). fold req'.
  unfold policy_call_RequestCredentialApproval, bind at 1. rewrite Hp.
  fold w2. fold (new_Credential req').
  unfold bind at 1.
  destruct (signCredential E (new_Credential req') w2) as [[[[e|] cred]|reason] w3].
  - unfold bind, ret. rewrite writeCredentialResponse_DENIED. reflexivity.
  - unfold bind, ret.
    destruct (writeCredentialResponse E conn (APPROVED cred) w3) as [[err|reason] w4];
      reflexivity.
  - reflexivity.
Qed.

End CredentialPaths.

Lemma checkChallenge_total (E : Env) (scope : Scope)
    (challenge : option Challenge) (w : World) :
  exists err challenge',
    checkChallenge E scope challenge w = (Returned (err, challenge'), w).
Proof.
  rewrite checkChallenge_cases.
  destruct (knownhosts_New E w) as [kh|e]; [|eauto].
  destruct (checkChallenge_loop E kh scope _); eauto.
Qed.

(** Every call of the handler is one of these runs. *)
Lemma handleCredentialRequest_run (E : Env) (conn : Stream) (scope : Scope)
    (req : CredentialRequest) (w : World) :
  exists o delta,
    handleCredentialRequest E conn scope req w = (o, w ++ delta)
    /\ credential_run E conn scope req w delta.
Proof.
  destruct (checkChallenge_total E scope (req_Challenge req) w)
    as ([e|] & challenge & Hcheck).
  { rewrite (handleCredentialRequest_blocked E conn scope req w _ _ _ Hcheck).
    eauto using run_blocked. }
  destruct (policy_RequestCredentialApproval E w scope (narrowed req challenge))
    as [e|] eqn:Hpolicy.
  { rewrite (handleCredentialRequest_denied E conn scope req w _ _ _ Hcheck Hpolicy).
    rewrite <- app_assoc. eauto using run_denied. }
  rewrite (handleCredentialRequest_approved E conn scope req w _ _ Hcheck Hpolicy).
  set (req' := narrowed req challenge).
  set (w2 := w ++ [EvRequestCredentialApproval scope req']).
  destruct (signCredential E (new_Credential req') w2) as [o w3] eqn:Hsign.
  destruct (signCredential_trace E _ _ _ _ Hsign) as [Hw3 Hkeep].
  assert (exists dsign, w3 = w ++ EvRequestCredentialApproval scope req' :: dsign
                        /\ (dsign = [] \/ exists key data, dsign = [EvSign key data]))
    as (dsign & -> & Hdsign).
  { destruct Hw3 as [->|(key & data & ->)].
    - exists []. auto.
    - exists [EvSign key data]. split; [|eauto].
      unfold w2. now rewrite <- app_assoc. }
  destruct o as [[[e|] cred]|reason].
  - exists (Returned (Some ("Failed to sign credential: " +++ e), req')).
    exists (EvRequestCredentialApproval scope req' :: dsign ++ [denied_write E conn]).
    split; [now rewrite <- app_assoc|].
    eapply run_approved; eauto.
  - rewrite writeCredentialResponse_APPROVED.
    destruct (Hkeep None cred eq_refl) as [_ Hch]. simpl in Hch.
    destruct (proto_Marshal_status_cred E CredentialResponse_APPROVED cred) as [b|e].
    + eexists.
      exists (EvRequestCredentialApproval scope req'
                :: dsign ++ [approved_write conn cred b]).
      split; [now rewrite <- app_assoc|].
      eapply run_approved; eauto.
      right. right. eauto.
    + eexists. exists (EvRequestCredentialApproval scope req' :: dsign ++ []).
      split; [now rewrite app_nil_r|].
      eapply run_approved; eauto.
  - eexists. exists (EvRequestCredentialApproval scope req' :: dsign ++ []).
    split; [now rewrite app_nil_r|].
    eapply run_approved; eauto.
Qed.

(** The events of a given call are those of its run. *)
Lemma handleCredentialRequest_events (E : Env) (conn : Stream) (scope : Scope)
    (req : CredentialRequest) (w : World)
    (o : Outcome (option error * CredentialRequest)) (delta : list Event) :
  handleCredentialRequest E conn scope req w = (o, w ++ delta) ->
  credential_run E conn scope req w delta.
Proof.
  intros H.
  destruct (handleCredentialRequest_run E conn scope req w)
    as (o' & delta' & H' & Hrun).
  rewrite H in H'. inversion H' as [[Ho Hd]].
  apply app_inv_head in Hd. now subst.
Qed.

(** What [candidate_ok] tests, spelled out: the blob parses and the
    known-hosts callback accepts the key for the address made of the
    client host and port of the scope. *)
Lemma candidate_ok_spec (E : Env) (kh : string -> PublicKey E -> option error)
    (scope : Scope) (pkBytes : bytes) :
  candidate_ok E kh scope pkBytes = true
  <-> exists pk,
        ssh_ParsePublicKey E pkBytes = Some pk
        /\ kh (net_JoinHostPort (ClientHostname scope)
                 (strconv_FormatUint (ClientPort scope))) pk = None.
Proof.
  unfold candidate_ok, client_endpoint.
  destruct (ssh_ParsePublicKey E pkBytes) as [pk|].
  - destruct (kh _ pk) as [e|] eqn:Hkh.
    + split; [discriminate|]. intros (pk' & Hpk & Hnone).
      inversion Hpk; subst pk'. rewrite Hkh in Hnone. discriminate.
    + split; [|reflexivity]. intros _. eauto.
  - split; [discriminate|]. intros (pk & Hpk & _). discriminate.
Qed.

(** A host name or an IPv4 address is joined to the port by a colon. *)
Lemma net_JoinHostPort_plain (host port : string) :
  strings_IndexByte_found ":" host = false ->
  net_JoinHostPort host port = host +++ ":" +++ port.
Proof. intros H. unfold net_JoinHostPort. now rewrite H. Qed.

(** C2: when the handler answers [APPROVED], the challenge of the issued
    credential holds exactly one key; that key is one of the keys of the
    request, namely the first one that parses as a public key and that
    the [known_hosts] callback accepts for the address
    [JoinHostPort(scope.ClientHostname, FormatUint(scope.ClientPort))]. *)
Theorem approved_challenge_narrowed (E : Env) (conn : Stream) (scope : Scope)
    (req : CredentialRequest) (w : World)
    (o : Outcome (option error * CredentialRequest)) (delta : list Event)
    (cred : Credential) (b : bytes) :
  handleCredentialRequest E conn scope req w = (o, w ++ delta) ->
  In (approved_write conn cred b) delta ->
  let address :=
    net_JoinHostPort (ClientHostname scope)
      (strconv_FormatUint (ClientPort scope)) in
  exists kh k bad rest,
    knownhosts_New E w = Ok kh
    /\ cred_Challenge cred = Some (mkChallenge [k])
    /\ In k (GetServerPublicKeys (req_Challenge req))
    /\ GetServerPublicKeys (req_Challenge req) = bad ++ k :: rest
    /\ (exists pk, ssh_ParsePublicKey E k = Some pk /\ kh address pk = None)
    /\ Forall
         (fun x =>
            ~ exists pk, ssh_ParsePublicKey E x = Some pk
                         /\ kh address pk = None) bad.
Proof.
  intros Hrun Hin address.
  apply handleCredentialRequest_events in Hrun.
  inversion Hrun as [e ch w1 Hcheck Hd
                    |e ch w1 Hcheck Hpolicy Hd
                    |ch w1 dsign tail Hcheck Hpolicy Hdsign Htail Hd];
    subst delta.
  - destruct Hin as [Hin|[]]. discriminate Hin.
  - destruct Hin as [Hin|[Hin|[]]]; discriminate Hin.
  - destruct Hin as [Hin|Hin]; [discriminate Hin|].
    apply in_app_or in Hin. destruct Hin as [Hin|Hin].
    { destruct Hdsign as [->|(key & data & ->)];
        [destruct Hin|destruct Hin as [Hin|[]]; discriminate Hin]. }
    destruct Htail as [->|[->|(cred' & b' & -> & Hch)]].
    + destruct Hin.
    + destruct Hin as [Hin|[]]. discriminate Hin.
    + destruct Hin as [Hin|[]]. inversion Hin; subst cred' b'.
      revert Hcheck. rewrite checkChallenge_cases.
      destruct (knownhosts_New E w) as [kh|e0]; [|discriminate].
      pose proof (checkChallenge_loop_first E kh scope
                    (GetServerPublicKeys (req_Challenge req))) as Hloop.
      destruct (checkChallenge_loop E kh scope _) as [k|]; [|discriminate].
      intros Hcheck. inversion Hcheck; subst ch w1.
      destruct Hloop as (bad & rest & Hkeys & Hbad & Hk).
      exists kh, k, bad, rest.
      split; [reflexivity|]. split; [congruence|]. split.
      { rewrite Hkeys. apply in_or_app. right. now left. }
      split; [exact Hkeys|]. split.
      { now apply candidate_ok_spec. }
      eapply Forall_impl; [|exact Hbad].
      intros x Hx Hmatch. apply candidate_ok_spec in Hmatch.
      rewrite Hx in Hmatch. discriminate.
Qed.

Lemma approved_challenge_narrowed_witness :
  exists cred,
    cred_Challenge cred = Some (mkChallenge [[x2a]])
    /\ exists kh k bad rest,
         knownhosts_New (Sample.env Sample.nominal) [] = Ok kh
         /\ cred_Challenge cred = Some (mkChallenge [k])
         /\ In k (GetServerPublicKeys
                    (req_Challenge (Sample.credReq [x07; xff; x2a; x2a; x09])))
         /\ GetServerPublicKeys
              (req_Challenge (Sample.credReq [x07; xff; x2a; x2a; x09]))
            = bad ++ k :: rest
         /\ (exists pk,
                ssh_ParsePublicKey (Sample.env Sample.nominal) k = Some pk
                /\ kh "10.0.0.2:2222" pk = None)
         /\ Forall
              (fun x =>
                 ~ exists pk,
                     ssh_ParsePublicKey (Sample.env Sample.nominal) x = Some pk
                     /\ kh "10.0.0.2:2222" pk = None) bad.
Proof.
  eexists. split; cycle 1.
  - eapply (approved_challenge_narrowed (Sample.env Sample.nominal) conn_stub
              Sample.laptop (Sample.credReq [x07; xff; x2a; x2a; x09]) []).
    + vm_compute. reflexivity.
    + right. right. left. reflexivity.
  - reflexivity.
Defined.

Lemma checkChallenge_world (E : Env) (scope : Scope)
    (challenge : option Challenge) (w : World)
    (o : Outcome (option error * option Challenge)) (w1 : World) :
  checkChallenge E scope challenge w = (o, w1) -> w1 = w.
Proof.
  rewrite checkChallenge_cases.
  destruct (knownhosts_New E w) as [kh|e].
  - destruct (checkChallenge_loop E kh scope _); intros H; now inversion H.
  - intros H; now inversion H.
Qed.

(** C3: when challenge verification fails or the policy denies, the
    handler answers [DENIED], sends no credential and invokes no signer; a
    signer is invoked, and a credential sent, only after verification and
    policy have both passed. *)
Theorem denial_does_not_sign (E : Env) (conn : Stream) (scope : Scope)
    (req : CredentialRequest) (w : World)
    (o : Outcome (option error * CredentialRequest)) (delta : list Event) :
  handleCredentialRequest E conn scope req w = (o, w ++ delta) ->
  ((exists e challenge,
       checkChallenge E scope (req_Challenge req) w
       = (Returned (Some e, challenge), w))
   \/ (exists e challenge,
         checkChallenge E scope (req_Challenge req) w
         = (Returned (None, challenge), w)
         /\ policy_RequestCredentialApproval E w scope (narrowed req challenge)
            = Some e) ->
   signer_invocations delta = 0%nat
   /\ credentials_sent delta = []
   /\ In (denied_write E conn) delta)
  /\ (signer_invocations delta <> 0%nat \/ credentials_sent delta <> [] ->
      exists challenge,
        checkChallenge E scope (req_Challenge req) w
        = (Returned (None, challenge), w)
        /\ policy_RequestCredentialApproval E w scope (narrowed req challenge)
           = None).
Proof.
  intros Hrun. apply handleCredentialRequest_events in Hrun.
  inversion Hrun as [e ch w1 Hcheck Hd
                    |e ch w1 Hcheck Hpolicy Hd
                    |ch w1 dsign tail Hcheck Hpolicy Hdsign Htail Hd];
    subst delta;
    pose proof (checkChallenge_world _ _ _ _ _ _ Hcheck) as ->.
  - split.
    + intros _. simpl. auto.
    + simpl. intros [H|H]; now destruct H.
  - split.
    + intros _. simpl. auto.
    + simpl. intros [H|H]; now destruct H.
  - split.
    + intros [(e & ch' & H)|(e & ch' & H & Hp)]; rewrite Hcheck in H.
      * discriminate H.
      * inversion H; subst ch'. rewrite Hpolicy in Hp. discriminate Hp.
    + intros _. eauto.
Qed.

Lemma denial_does_not_sign_witness :
  (signer_invocations
    [denied_write (Sample.env Sample.nominal) conn_stub] = 0%nat
  /\ credentials_sent
       [denied_write (Sample.env Sample.nominal) conn_stub] = []
  /\ In (denied_write (Sample.env Sample.nominal) conn_stub)
        [denied_write (Sample.env Sample.nominal) conn_stub])
  /\ exists challenge,
       checkChallenge (Sample.env Sample.nominal) Sample.laptop
         (req_Challenge (Sample.credReq [x2a])) []
       = (Returned (None, challenge), [])
       /\ policy_RequestCredentialApproval (Sample.env Sample.nominal) []
            Sample.laptop (narrowed (Sample.credReq [x2a]) challenge)
          = None.
Proof.
  split.
  2:{ refine (proj2 (denial_does_not_sign (Sample.env Sample.nominal) conn_stub
                       Sample.laptop (Sample.credReq [x2a]) [] _ _ _) _).
      - vm_compute. reflexivity.
      - left. vm_compute. discriminate. }
  apply (proj1 (denial_does_not_sign (Sample.env Sample.nominal) conn_stub
                  Sample.laptop (Sample.credReq [x07; xff]) []
                  (Returned
                     (Some ("request BLOCKED due to invalid challenge: "
                            +++ "Could not verify server public key against known_hosts"),
                      Sample.credReq [x07; xff]))
                  [denied_write (Sample.env Sample.nominal) conn_stub]
                  eq_refl)).
  left. eexists. eexists. reflexivity.
Defined.

(** ** Policy denial *)

(** C5, as the code has it: a denied execution request is answered with
    [EXECUTION_DENIED] carrying the reason and the handler returns [nil]; a
    denied credential request is answered with
    [CREDENTIAL_RESPONSE{DENIED}] and the handler returns what writing that
    response returned: [nil] when the write succeeded, the write error
    otherwise. *)
Theorem policy_denial_outcome (E : Env) (conn : Stream) (scope : Scope)
    (cmd : string) (req : CredentialRequest) (w : World) :
  (forall e,
      policy_RequestApproval E w scope cmd = Some e ->
      handleExecutionRequest E scope cmd w =
      (Returned None,
       w ++ [EvRequestApproval scope cmd;
             EvWriteControlPacket conn_stub MsgNum_EXECUTION_DENIED
               (Packet_ssh (ExecutionDeniedMessage e))
               (ssh_Marshal E (ExecutionDeniedMessage e))]))
  /\ (forall e challenge,
         let req' := narrowed req challenge in
         let w2 := w ++ [EvRequestCredentialApproval scope req'] in
         let written :=
           write_result E w2 conn MsgNum_CREDENTIAL_RESPONSE
             (proto_Marshal_status E CredentialResponse_DENIED) in
         checkChallenge E scope (req_Challenge req) w
         = (Returned (None, challenge), w) ->
         policy_RequestCredentialApproval E w scope req' = Some e ->
         handleCredentialRequest E conn scope req w =
         (Returned (write_error written, req'), w2 ++ [denied_write E conn])
         /\ (written = None -> write_error written = None)
         /\ (forall we, written = Some we ->
               write_error written
               = Some ("Failed to write credential respoinse: " +++ we))).
Proof.
  split.
  - intros e Hp.
    unfold handleExecutionRequest, policy_call_RequestApproval,
      WriteControlPacket, bind, ret.
    rewrite Hp. now rewrite <- app_assoc.
  - intros e challenge req' w2 written Hcheck Hpolicy.
    split; [|split].
    + apply (handleCredentialRequest_denied E conn scope req w e challenge w
               Hcheck Hpolicy).
    + now intros ->.
    + now intros we ->.
Qed.

Lemma policy_denial_outcome_witness :
  handleExecutionRequest (Sample.env Sample.exec_denied) Sample.laptop "uptime" [] =
  (Returned None,
   [EvRequestApproval Sample.laptop "uptime";
    EvWriteControlPacket conn_stub MsgNum_EXECUTION_DENIED
      (Packet_ssh (ExecutionDeniedMessage "denied"))
      [x00; x00; x00; x06; x64; x65; x6e; x69; x65; x64]])
  /\ handleCredentialRequest (Sample.env Sample.cred_denied) conn_stub Sample.laptop
       (Sample.credReq [x2a]) [] =
     (Returned (None, Sample.credReq [x2a]),
      [EvRequestCredentialApproval Sample.laptop (Sample.credReq [x2a]);
       denied_write (Sample.env Sample.cred_denied) conn_stub]).
Proof.
  split.
  - exact (proj1 (policy_denial_outcome (Sample.env Sample.exec_denied) conn_stub
                    Sample.laptop "uptime" (Sample.credReq [x2a]) [])
             "denied" eq_refl).
  - exact (proj1 (proj2 (policy_denial_outcome (Sample.env Sample.cred_denied) conn_stub
                           Sample.laptop "uptime" (Sample.credReq [x2a]) [])
                    "denied" (Some (mkChallenge [[x2a]])) eq_refl eq_refl)).
Defined.

(** C5, as stated, fails: the policy denies a credential request while the
    connection no longer takes writes, and the handler returns an error. *)
Lemma denied_credential_write_error :
  policy_RequestCredentialApproval (Sample.env Sample.cred_denied_stub_gone) []
    Sample.laptop (Sample.credReq [x2a]) = Some "denied"
  /\ handleCredentialRequest (Sample.env Sample.cred_denied_stub_gone) conn_stub
       Sample.laptop (Sample.credReq [x2a]) [] =
     (Returned
        (Some "Failed to write credential respoinse: io: read/write on closed pipe",
         Sample.credReq [x2a]),
      [EvRequestCredentialApproval Sample.laptop (Sample.credReq [x2a]);
       denied_write (Sample.env Sample.cred_denied_stub_gone) conn_stub]).
Proof. split; reflexivity. Qed.

(** ** Signing *)

(** With a signer at hand, [signCredential] signs with the first one: its
    key becomes the signature key and it is the signer invoked. *)
Lemma signCredential_first_signer (E : Env) (cred cred' : Credential)
    (w w' : World) (signer : Signer) (others : list Signer) :
  getSigners E w = signer :: others ->
  signCredential E cred w = (Returned (None, cred'), w') ->
  SignatureKey cred' = PublicKey_Marshal signer
  /\ exists data sig,
       Sign signer w data = Ok sig
       /\ Signature cred' = Blob sig
       /\ SignatureFormat cred' = Format sig
       /\ w' = w ++ [EvSign (PublicKey_Marshal signer) data].
Proof.
  intros Hs. rewrite signCredential_cases, Hs.
  destruct (rand_ReadFull E w 32) as [nonce|e]; [|discriminate].
  cbv zeta.
  destruct (proto_Marshal_cred E _) as [data|e]; [|discriminate].
  destruct (Sign signer w data) as [sig|e] eqn:Hsig; [|discriminate].
  intros H; inversion H; subst. simpl. eauto 10.
Qed.

(** C6 at the failing input: when the signer list is empty, an approved
    credential request makes [signers[0]] panic; the panic unwinds the
    connection loop, nothing is written to the stub and the UI hears
    nothing of it. *)
Theorem empty_signer_list_panics (E : Env) (scope : Scope) (payload : bytes)
    (rest : list (MsgNum * bytes)) (closing : ReadError) (w : World)
    (req : CredentialRequest) (challenge : option Challenge) :
  let w0 := w ++ [EvLog ("Got msgNum: "
                         +++ fmt_d (MsgNum_value E MsgNum_CREDENTIAL_REQUEST))] in
  let req' := narrowed req challenge in
  let w2 := w0 ++ [EvRequestCredentialApproval scope req'] in
  proto_Unmarshal_credReq E payload = Ok req ->
  checkChallenge E scope (req_Challenge req) w0
  = (Returned (None, challenge), w0) ->
  policy_RequestCredentialApproval E w0 scope req' = None ->
  getSigners E w2 = [] ->
  HandleConnection_loop E scope
    ((MsgNum_CREDENTIAL_REQUEST, payload) :: rest) closing w
  = (Panicked "index out of range [0] with length 0", w2).
Proof.
  intros w0 req' w2 Hu Hcheck Hpolicy Hsigners.
  cbn [HandleConnection_loop]. rewrite Hu.
  unfold bind at 1. unfold log_Printf, emit. fold w0.
  unfold bind at 1.
  rewrite (handleCredentialRequest_approved E conn_stub scope req w0 _ _
             Hcheck Hpolicy).
  fold req'. fold w2.
  rewrite signCredential_cases, Hsigners. reflexivity.
Qed.

Lemma empty_signer_list_panics_witness :
  HandleConnection_loop (Sample.env Sample.no_signers) Sample.laptop
    [(MsgNum_CREDENTIAL_REQUEST, [x2a]); (MsgNum_EXECUTION_REQUEST, [])]
    io_EOF []
  = (Panicked "index out of range [0] with length 0",
     [EvLog "Got msgNum: 204";
      EvRequestCredentialApproval Sample.laptop (Sample.credReq [x2a])]).
Proof.
  exact (empty_signer_list_panics (Sample.env Sample.no_signers) Sample.laptop
           [x2a] [(MsgNum_EXECUTION_REQUEST, [])] io_EOF []
           (Sample.credReq [x2a]) (Some (mkChallenge [[x2a]]))
           eq_refl eq_refl eq_refl eq_refl).
Defined.

(** The failures of [signCredential]: reading the nonce, marshalling the
    credential, signing. *)
Lemma signCredential_failure_sources (E : Env) (cred : Credential) (w : World)
    (signer : Signer) (others : list Signer) (e : error) :
  getSigners E w = signer :: others ->
  let cred1 nonce :=
    mkCredential (cred_Op cred) (cred_Challenge cred) nonce
      (PublicKey_Marshal signer) (Signature cred) (SignatureFormat cred) in
  (rand_ReadFull E w 32 = Err e
   \/ (exists nonce, rand_ReadFull E w 32 = Ok nonce
                     /\ proto_Marshal_cred E (cred1 nonce) = Err e)
   \/ (exists nonce data, rand_ReadFull E w 32 = Ok nonce
                          /\ proto_Marshal_cred E (cred1 nonce) = Ok data
                          /\ Sign signer w data = Err e))
  <-> exists cred' w', signCredential E cred w = (Returned (Some e, cred'), w').
Proof.
  intros Hs cred1. rewrite signCredential_cases, Hs. split.
  - intros [H|[(nonce & H1 & H2)|(nonce & data & H1 & H2 & H3)]].
    + rewrite H. eauto.
    + rewrite H1. cbv zeta. fold (cred1 nonce). rewrite H2. eauto.
    + rewrite H1. cbv zeta. fold (cred1 nonce). rewrite H2, H3. eauto.
  - intros (cred' & w' & H). revert H.
    destruct (rand_ReadFull E w 32) as [nonce|e0].
    2:{ intros H; inversion H; subst. auto. }
    cbv zeta. fold (cred1 nonce).
    destruct (proto_Marshal_cred E (cred1 nonce)) as [data|e0] eqn:Hm.
    2:{ intros H; inversion H; subst. right. left. eauto. }
    destruct (Sign signer w data) as [sig|e0] eqn:Hsig.
    + discriminate.
    + intros H; inversion H; subst. right. right. eauto.
Qed.

(** The credential was signed but the [APPROVED] response does not
    marshal: the handler returns that error and writes nothing. *)
Lemma approved_response_not_marshalled (E : Env) (conn : Stream) (scope : Scope)
    (req : CredentialRequest) (w : World) (challenge : option Challenge)
    (cred : Credential) (w3 : World) (e : error) :
  let req' := narrowed req challenge in
  checkChallenge E scope (req_Challenge req) w = (Returned (None, challenge), w) ->
  policy_RequestCredentialApproval E w scope req' = None ->
  signCredential E (new_Credential req')
    (w ++ [EvRequestCredentialApproval scope req'])
  = (Returned (None, cred), w3) ->
  proto_Marshal_status_cred E CredentialResponse_APPROVED cred = Err e ->
  handleCredentialRequest E conn scope req w =
  (Returned (Some ("Failed to marshal credential response: " +++ e +++ ", "
                   +++ fmt_resp E (APPROVED cred)), req'), w3).
Proof.
  intros req' Hcheck Hpolicy Hsign Hm.
  rewrite (handleCredentialRequest_approved E conn scope req w _ _ Hcheck Hpolicy).
  fold req'. rewrite Hsign, writeCredentialResponse_APPROVED, Hm. reflexivity.
Qed.

(** One turn of the loop on a credential request. *)
Lemma HandleConnection_credential_request (E : Env) (scope : Scope)
    (payload : bytes) (rest : list (MsgNum * bytes)) (closing : ReadError)
    (w : World) (req req' : CredentialRequest) (err : option error)
    (w' : World) :
  let w0 := w ++ [EvLog ("Got msgNum: "
                         +++ fmt_d (MsgNum_value E MsgNum_CREDENTIAL_REQUEST))] in
  proto_Unmarshal_credReq E payload = Ok req ->
  handleCredentialRequest E conn_stub scope req w0 = (Returned (err, req'), w') ->
  HandleConnection_loop E scope ((MsgNum_CREDENTIAL_REQUEST, payload) :: rest)
    closing w =
  HandleConnection_loop E scope rest closing
    (match err with
     | Some e =>
         w' ++ [EvInform ("Error handling "
                          +++ CredentialRequestToString E scope req'
                          +++ ": " +++ e)]
     | None => w'
     end).
Proof.
  intros w0 Hu Hh.
  cbn [HandleConnection_loop]. rewrite Hu.
  unfold bind at 1. unfold log_Printf, emit. fold w0.
  unfold bind at 1. rewrite Hh.
  unfold bind at 1.
  destruct err as [e|]; reflexivity.
Qed.

(** [wire_Conn] unfolds along [ReadControlPacket]. *)
Lemma wire_Conn_step (MsgNum_of_byte : byte -> MsgNum) (maxPayload : Z)
    (s : list byte) :
  wire_Conn MsgNum_of_byte maxPayload s =
  match wire_ReadControlPacket MsgNum_of_byte maxPayload s with
  | (inl p, s') =>
      mkConn (p :: incoming (wire_Conn MsgNum_of_byte maxPayload s'))
             (closing (wire_Conn MsgNum_of_byte maxPayload s'))
  | (inr e, _) => mkConn [] e
  end.
Proof.
  rewrite wire_Conn_equation_1.
  destruct (inspect (wire_ReadControlPacket MsgNum_of_byte maxPayload s))
    as [[[p|e] s'] Heq]; simp wire_Conn; rewrite Heq;
    rewrite ?wire_Conn_equation_1; reflexivity.
Qed.

(** ** The message loop *)

(** The stream ends: a clean end of file (or a closed pipe) ends the loop
    without an error, any other read error ends it with that error. *)
Lemma HandleConnection_loop_end (E : Env) (scope : Scope) (closing : ReadError)
    (w : World) :
  HandleConnection_loop E scope [] closing w =
  (Returned
     match closing with
     | io_EOF | io_ErrClosedPipe => None
     | ReadFailure e => Some ("Failed to read control packet: " +++ e)
     end, w).
Proof. destruct closing; reflexivity. Qed.

(** A message the [switch] has no case for takes the [default] branch. *)
Lemma HandleConnection_loop_default (E : Env) (scope : Scope) (msgNum : MsgNum)
    (payload : bytes) (rest : list (MsgNum * bytes)) (closing : ReadError)
    (w : World) :
  msgNum <> MsgNum_AGENT_FORWARDING_NOTICE ->
  msgNum <> MsgNum_EXECUTION_REQUEST ->
  msgNum <> MsgNum_CREDENTIAL_REQUEST ->
  msgNum <> MsgNum_AGENTC_EXTENSION ->
  HandleConnection_loop E scope ((msgNum, payload) :: rest) closing w =
  (Returned (Some ("Unrecognized incoming message: "
                   +++ fmt_d (MsgNum_value E msgNum))),
   w ++ [EvLog ("Got msgNum: " +++ fmt_d (MsgNum_value E msgNum));
         EvWriteControlPacket conn_stub MsgNum_AGENT_FAILURE Packet_empty []]).
Proof.
  intros H1 H2 H3 H4.
  destruct msgNum; try congruence;
    cbn [HandleConnection_loop];
    unfold bind, log_Printf, emit, WriteControlPacket, ret;
    now rewrite <- app_assoc.
Qed.

(** C8: an [AGENTC_EXTENSION] query for the guard extension is answered
    with [AGENT_SUCCESS] and the loop goes on with the same scope; an
    [AGENTC_EXTENSION] query for anything else, and any message number
    outside the enumeration, is answered with [AGENT_FAILURE] and ends the
    connection with an error. *)
Theorem extension_and_unknown (E : Env) (scope : Scope) (payload : bytes)
    (rest : list (MsgNum * bytes)) (closing : ReadError) (w : World) :
  let logged m := w ++ [EvLog ("Got msgNum: " +++ fmt_d (MsgNum_value E m))] in
  let queryExtension := ssh_Unmarshal_extension E payload in
  (ExtensionType queryExtension = AgentGuardExtensionType E ->
   HandleConnection_loop E scope ((MsgNum_AGENTC_EXTENSION, payload) :: rest)
     closing w =
   HandleConnection_loop E scope rest closing
     (logged MsgNum_AGENTC_EXTENSION
        ++ [EvWriteControlPacket conn_stub MsgNum_AGENT_SUCCESS Packet_empty []]))
  /\ (forall msgNum,
         (msgNum = MsgNum_AGENTC_EXTENSION
          /\ ExtensionType queryExtension <> AgentGuardExtensionType E)
         \/ recognized msgNum = false ->
         HandleConnection_loop E scope ((msgNum, payload) :: rest) closing w =
         (Returned (Some ("Unrecognized incoming message: "
                          +++ fmt_d (MsgNum_value E msgNum))),
          logged msgNum
            ++ [EvWriteControlPacket conn_stub MsgNum_AGENT_FAILURE
                  Packet_empty []])).
Proof.
  intros logged queryExtension. split.
  - intros Hext. cbn [HandleConnection_loop].
    fold queryExtension. rewrite Hext, String.eqb_refl.
    unfold bind, log_Printf, emit, WriteControlPacket. reflexivity.
  - intros msgNum [[-> Hext]|Hunknown].
    + cbn [HandleConnection_loop]. fold queryExtension.
      apply String.eqb_neq in Hext. rewrite Hext.
      unfold bind, log_Printf, emit, WriteControlPacket, ret. reflexivity.
    + unfold logged. rewrite <- app_assoc.
      apply HandleConnection_loop_default;
        intros ->; discriminate Hunknown.
Qed.

Lemma extension_and_unknown_witness :
  HandleConnection_loop (Sample.env Sample.nominal) Sample.laptop
    [(MsgNum_AGENTC_EXTENSION, list_byte_of_string "guard@sample")] io_EOF [] =
  (Returned None,
   [EvLog "Got msgNum: 27";
    EvWriteControlPacket conn_stub MsgNum_AGENT_SUCCESS Packet_empty []])
  /\ HandleConnection_loop (Sample.env Sample.nominal) Sample.laptop
       [(MsgNum_AGENTC_EXTENSION, list_byte_of_string "session-bind@openssh.com");
        (MsgNum_EXECUTION_REQUEST, [])] io_EOF [] =
     (Returned (Some "Unrecognized incoming message: 27"),
      [EvLog "Got msgNum: 27";
       EvWriteControlPacket conn_stub MsgNum_AGENT_FAILURE Packet_empty []])
  /\ HandleConnection_loop (Sample.env Sample.nominal) Sample.laptop
       [(MsgNum_unknown 254, []); (MsgNum_EXECUTION_REQUEST, [])] io_EOF [] =
     (Returned (Some "Unrecognized incoming message: 254"),
      [EvLog "Got msgNum: 254";
       EvWriteControlPacket conn_stub MsgNum_AGENT_FAILURE Packet_empty []]).
Proof.
  split; [|split].
  - exact (proj1 (extension_and_unknown (Sample.env Sample.nominal) Sample.laptop
                    (list_byte_of_string "guard@sample") [] io_EOF [])
             eq_refl).
  - apply (proj2 (extension_and_unknown (Sample.env Sample.nominal) Sample.laptop
                    (list_byte_of_string "session-bind@openssh.com")
                    [(MsgNum_EXECUTION_REQUEST, [])] io_EOF [])
             MsgNum_AGENTC_EXTENSION).
    left. split; [reflexivity|]. vm_compute. discriminate.
  - apply (proj2 (extension_and_unknown (Sample.env Sample.nominal) Sample.laptop
                    [] [(MsgNum_EXECUTION_REQUEST, [])] io_EOF [])
             (MsgNum_unknown 254)).
    right. reflexivity.
Defined.

(** The reader takes a whole frame off the stream and leaves the rest. *)
Lemma wire_ReadControlPacket_frame (MsgNum_of_byte : byte -> MsgNum)
    (maxPayload : Z) (f : WireFrame) (s : list byte) :
  whole_frame maxPayload f = true ->
  wire_ReadControlPacket MsgNum_of_byte maxPayload (frame_bytes f ++ s)
  = (inl (MsgNum_of_byte (frame_num f), frame_payload f), s).
Proof.
  destruct f as [m [[[b0 b1] b2] b3] payload].
  unfold whole_frame, frame_length, frame_bytes. cbn [frame_len frame_num frame_payload].
  intros H. apply andb_prop in H. destruct H as [Hlen Hmax].
  apply Z.eqb_eq in Hlen. apply Z.leb_le in Hmax.
  rewrite <- !app_comm_cons. unfold wire_ReadControlPacket. cbv zeta.
  replace (maxPayload <? be32 b0 b1 b2 b3) with false
    by (symmetry; apply Z.ltb_ge; lia).
  replace (Z.of_nat (List.length (payload ++ s)) <? be32 b0 b1 b2 b3) with false
    by (symmetry; apply Z.ltb_ge; rewrite length_app; lia).
  rewrite Hlen, Nat2Z.id.
  rewrite firstn_app, firstn_all, Nat.sub_diag, firstn_O, app_nil_r.
  rewrite skipn_app, skipn_all, Nat.sub_diag. reflexivity.
Qed.

Lemma wire_Conn_frame (MsgNum_of_byte : byte -> MsgNum) (maxPayload : Z)
    (f : WireFrame) (s : list byte) :
  whole_frame maxPayload f = true ->
  wire_Conn MsgNum_of_byte maxPayload (frame_bytes f ++ s)
  = mkConn ((MsgNum_of_byte (frame_num f), frame_payload f)
              :: incoming (wire_Conn MsgNum_of_byte maxPayload s))
           (closing (wire_Conn MsgNum_of_byte maxPayload s)).
Proof.
  intros H. rewrite wire_Conn_step.
  now rewrite (wire_ReadControlPacket_frame _ _ _ _ H).
Qed.

(** Where the stream ends decides how the connection ends. *)
Lemma wire_Conn_tail (MsgNum_of_byte : byte -> MsgNum) (maxPayload : Z)
    (tail : list byte) :
  (tail = [] -> wire_Conn MsgNum_of_byte maxPayload tail = mkConn [] io_EOF)
  /\ (ends_mid_packet maxPayload tail = true ->
      wire_Conn MsgNum_of_byte maxPayload tail
      = mkConn [] (ReadFailure "unexpected EOF")).
Proof.
  rewrite wire_Conn_step. split.
  - intros ->. reflexivity.
  - unfold ends_mid_packet, wire_ReadControlPacket.
    destruct tail as [|m [|b0 [|b1 [|b2 [|b3 body]]]]];
      try discriminate; try reflexivity.
    intros H. apply andb_prop in H. destruct H as [Hmax Hshort].
    apply Z.leb_le in Hmax.
    destruct (maxPayload <? be32 b0 b1 b2 b3) eqn:Hlt.
    { apply Z.ltb_lt in Hlt. lia. }
    rewrite Hshort. reflexivity.
Qed.

(** C9: the stub sends any number of [AGENT_FORWARDING_NOTICE] packets,
    none for a connection still in S0 and one or more for a connection in
    S1, and the byte stream then ends.  When it ends at the packet
    boundary, the loop handles the packets and returns without an error;
    when it ends inside the next packet, the loop handles the packets and
    returns the framing error. *)
Theorem eof_at_boundary_or_inside (E : Env) (MsgNum_of_byte : byte -> MsgNum)
    (maxPayload : Z) (frames : list WireFrame) (tail : list byte)
    (scope : Scope) (w : World) :
  Forall
    (fun f =>
       whole_frame maxPayload f = true
       /\ MsgNum_of_byte (frame_num f) = MsgNum_AGENT_FORWARDING_NOTICE
       /\ exists notice, ssh_Unmarshal_notice E (frame_payload f) = Ok notice)
    frames ->
  let conn :=
    wire_Conn MsgNum_of_byte maxPayload
      (List.concat (map frame_bytes frames) ++ tail) in
  let logs :=
    map (fun _ : WireFrame =>
           EvLog ("Got msgNum: "
                  +++ fmt_d (MsgNum_value E MsgNum_AGENT_FORWARDING_NOTICE)))
        frames in
  (tail = [] ->
   HandleConnection_loop E scope (incoming conn) (closing conn) w
   = (Returned None, w ++ logs))
  /\ (ends_mid_packet maxPayload tail = true ->
      HandleConnection_loop E scope (incoming conn) (closing conn) w
      = (Returned (Some "Failed to read control packet: unexpected EOF"),
         w ++ logs)).
Proof.
  intros Hframes. revert scope w.
  induction Hframes as [|f frames (Hwhole & Hnum & notice & Hnotice) _ IH];
    intros scope w conn logs.
  - unfold conn, logs. cbn [map List.concat]. rewrite app_nil_r, app_nil_l.
    destruct (wire_Conn_tail MsgNum_of_byte maxPayload tail) as [Hclean Hcut].
    split; intros H.
    + now rewrite (Hclean H).
    + now rewrite (Hcut H).
  - unfold conn, logs. cbn [map List.concat]. rewrite <- app_assoc.
    rewrite (wire_Conn_frame _ _ _ _ Hwhole).
    cbn [incoming closing]. rewrite Hnum.
    cbn [HandleConnection_loop]. rewrite Hnotice.
    unfold bind, log_Printf, emit.
    set (scope' := mkScope _ _ _ _ _).
    destruct (IH scope'
                (w ++ [EvLog ("Got msgNum: "
                              +++ fmt_d (MsgNum_value E
                                           MsgNum_AGENT_FORWARDING_NOTICE))]))
      as [Hclean Hcut].
    rewrite <- !app_assoc in Hclean, Hcut.
    split; [exact Hclean|exact Hcut].
Qed.

Lemma eof_at_boundary_or_inside_witness :
  HandleConnection_loop (Sample.env Sample.nominal) Scope_zero
    (incoming (wire_Conn Sample.MsgNum_of_byte 1024
                 [xc8; x00; x00; x00; x02; x61; x62]))
    (closing (wire_Conn Sample.MsgNum_of_byte 1024
                [xc8; x00; x00; x00; x02; x61; x62])) []
  = (Returned None, [EvLog "Got msgNum: 200"])
  /\ HandleConnection_loop (Sample.env Sample.nominal) Scope_zero
       (incoming (wire_Conn Sample.MsgNum_of_byte 1024
                    [xc8; x00; x00; x00; x02; x61; x62;
                     xc8; x00; x00; x00; x03; x61; x62]))
       (closing (wire_Conn Sample.MsgNum_of_byte 1024
                   [xc8; x00; x00; x00; x02; x61; x62;
                    xc8; x00; x00; x00; x03; x61; x62])) []
     = (Returned (Some "Failed to read control packet: unexpected EOF"),
        [EvLog "Got msgNum: 200"]).
Proof.
  assert (Forall
            (fun f =>
               whole_frame 1024 f = true
               /\ Sample.MsgNum_of_byte (frame_num f)
                  = MsgNum_AGENT_FORWARDING_NOTICE
               /\ exists notice,
                    ssh_Unmarshal_notice (Sample.env Sample.nominal)
                      (frame_payload f) = Ok notice)
            [mkFrame xc8 (x00, x00, x00, x02) [x61; x62]]) as Hframes.
  { constructor; [|constructor].
    split; [reflexivity|]. split; [reflexivity|].
    exists Sample.notice. reflexivity. }
  split.
  - exact (proj1 (eof_at_boundary_or_inside (Sample.env Sample.nominal)
                    Sample.MsgNum_of_byte 1024
                    [mkFrame xc8 (x00, x00, x00, x02) [x61; x62]] []
                    Scope_zero [] Hframes) eq_refl).
  - exact (proj2 (eof_at_boundary_or_inside (Sample.env Sample.nominal)
                    Sample.MsgNum_of_byte 1024
                    [mkFrame xc8 (x00, x00, x00, x02) [x61; x62]]
                    [xc8; x00; x00; x00; x03; x61; x62]
                    Scope_zero [] Hframes) eq_refl).
Defined.

(** A whole packet followed by the end of the stream: the packet is
    handled and the loop then returns cleanly. *)
Example eof_after_notice :
  HandleConnection (Sample.env Sample.nominal)
    (wire_Conn Sample.MsgNum_of_byte 1024 [xc8; x00; x00; x00; x02; x61; x62]) []
  = (Returned None,
     [EvInform "New incoming connection"; EvLog "Got msgNum: 200"]).
Proof. vm_compute. reflexivity. Qed.

(** ** Failures while the credential is built *)

(** C7: when [signCredential] fails (the nonce cannot be read, the
    credential does not marshal or the signer fails) the handler writes
    [CREDENTIAL_RESPONSE{DENIED}], sends no credential and returns an
    error, and the connection loop passes that error to the UI. *)
Theorem construction_failure_denied (E : Env) (scope : Scope) (payload : bytes)
    (rest : list (MsgNum * bytes)) (closing : ReadError) (w : World)
    (req : CredentialRequest) (challenge : option Challenge) (e : error)
    (cred' : Credential) (w3 : World) :
  let w0 := w ++ [EvLog ("Got msgNum: "
                         +++ fmt_d (MsgNum_value E MsgNum_CREDENTIAL_REQUEST))] in
  let req' := narrowed req challenge in
  let err := "Failed to sign credential: " +++ e in
  proto_Unmarshal_credReq E payload = Ok req ->
  checkChallenge E scope (req_Challenge req) w0
  = (Returned (None, challenge), w0) ->
  policy_RequestCredentialApproval E w0 scope req' = None ->
  signCredential E (new_Credential req')
    (w0 ++ [EvRequestCredentialApproval scope req'])
  = (Returned (Some e, cred'), w3) ->
  handleCredentialRequest E conn_stub scope req w0
  = (Returned (Some err, req'), w3 ++ [denied_write E conn_stub])
  /\ (exists delta,
         w3 ++ [denied_write E conn_stub] = w0 ++ delta
         /\ In (denied_write E conn_stub) delta
         /\ credentials_sent delta = [])
  /\ HandleConnection_loop E scope
       ((MsgNum_CREDENTIAL_REQUEST, payload) :: rest) closing w
     = HandleConnection_loop E scope rest closing
         (w3 ++ [denied_write E conn_stub;
                 EvInform ("Error handling "
                           +++ CredentialRequestToString E scope req'
                           +++ ": " +++ err)]).
Proof.
  intros w0 req' err Hu Hcheck Hpolicy Hsign.
  assert (handleCredentialRequest E conn_stub scope req w0
          = (Returned (Some err, req'), w3 ++ [denied_write E conn_stub])) as Hh.
  { rewrite (handleCredentialRequest_approved E conn_stub scope req w0 _ _
               Hcheck Hpolicy).
    fold req'. now rewrite Hsign. }
  split; [exact Hh|]. split.
  - destruct (signCredential_trace E _ _ _ _ Hsign) as [[->|(key & data & ->)] _].
    + exists [EvRequestCredentialApproval scope req'; denied_write E conn_stub].
      split; [now rewrite <- app_assoc|]. simpl. auto.
    + exists [EvRequestCredentialApproval scope req'; EvSign key data;
              denied_write E conn_stub].
      split; [now rewrite <- !app_assoc|]. simpl. auto.
  - rewrite (HandleConnection_credential_request E scope payload rest closing w
               req req' (Some err) _ Hu Hh).
    now rewrite <- app_assoc.
Qed.

Lemma construction_failure_denied_witness :
  (handleCredentialRequest (Sample.env Sample.signer_fails) conn_stub Sample.laptop
     (Sample.credReq [x2a]) [EvLog "Got msgNum: 204"]
   = (Returned (Some "Failed to sign credential: signing failed",
                Sample.credReq [x2a]),
      [EvLog "Got msgNum: 204";
       EvRequestCredentialApproval Sample.laptop (Sample.credReq [x2a]);
       EvSign [x02] (x01 :: x2a :: repeat x00 32 ++ [x02]);
       denied_write (Sample.env Sample.signer_fails) conn_stub]))
  /\ (HandleConnection_loop (Sample.env Sample.cred_unmarshallable) Sample.laptop
        [(MsgNum_CREDENTIAL_REQUEST, [x2a])] io_EOF []
      = (Returned None,
         [EvLog "Got msgNum: 204";
          EvRequestCredentialApproval Sample.laptop (Sample.credReq [x2a]);
          denied_write (Sample.env Sample.cred_unmarshallable) conn_stub;
          EvInform "Error handling credential request: Failed to sign credential: proto: required field not set"])).
Proof.
  split.
  - refine (proj1 (construction_failure_denied (Sample.env Sample.signer_fails)
                     Sample.laptop [x2a] [] io_EOF [] (Sample.credReq [x2a])
                     (Some (mkChallenge [[x2a]])) "signing failed" _
                     [EvLog "Got msgNum: 204";
                      EvRequestCredentialApproval Sample.laptop
                        (Sample.credReq [x2a]);
                      EvSign [x02] (x01 :: x2a :: repeat x00 32 ++ [x02])]
                     eq_refl eq_refl eq_refl _)).
    vm_compute. reflexivity.
  - refine (proj2 (proj2 (construction_failure_denied
                            (Sample.env Sample.cred_unmarshallable)
                            Sample.laptop [x2a] [] io_EOF []
                            (Sample.credReq [x2a])
                            (Some (mkChallenge [[x2a]]))
                            "proto: required field not set" _
                            [EvLog "Got msgNum: 204";
                             EvRequestCredentialApproval Sample.laptop
                               (Sample.credReq [x2a])]
                            eq_refl eq_refl eq_refl _))).
    vm_compute. reflexivity.
Defined.

(** * Further properties of the agent *)

(** ** The proxy around its run *)

(** X1: when the host key algorithms cannot be extracted, [proxySSH]
    returns that error under the prefix "Failed to extract host key
    algorithms from known_hosts" and does nothing else; when the proxy
    connection cannot be set up, it returns the error of
    [ssh.NewProxyConn] as it is.  In both cases the proxy is not run and
    nothing is written on the control stream, so neither handoff message
    is sent. *)
Theorem proxy_setup_failure_silent (E : Env) (scope : Scope) (w : World) :
  (forall e,
      knownhosts_OrderHostKeyAlgs E w (ServiceHostname scope) = Err e ->
      proxySSH E scope w
      = (Returned
           (Some ("Failed to extract host key algorithms from known_hosts: "
                  +++ e)), w))
  /\ (forall algs e,
         knownhosts_OrderHostKeyAlgs E w (ServiceHostname scope) = Ok algs ->
         ssh_NewProxyConn E w = Some e ->
         proxySSH E scope w
         = (Returned (Some e),
            w ++ [EvNewProxyConn (ServiceHostname scope)
                                 (ServiceUsername scope) algs]))
  /\ ((exists e, knownhosts_OrderHostKeyAlgs E w (ServiceHostname scope) = Err e)
      \/ (exists algs e,
             knownhosts_OrderHostKeyAlgs E w (ServiceHostname scope) = Ok algs
             /\ ssh_NewProxyConn E w = Some e) ->
      forall o delta,
        proxySSH E scope w = (o, w ++ delta) ->
        ~ In EvProxyRun delta
        /\ handoff_messages delta = []
        /\ forall on msgNum body payload,
             ~ In (EvWriteControlPacket on msgNum body payload) delta).
Proof.
  destruct (proxySSH_setup_failure E scope w) as [Halgs Hnew].
  split; [exact Halgs|]. split; [exact Hnew|].
  intros [(e & H)|(algs & e & H1 & H2)] o delta Hrun.
  - rewrite (Halgs e H) in Hrun. inversion Hrun as [[Ho Hw]].
    rewrite <- (app_nil_r w) in Hw at 1. apply app_inv_head in Hw. subst delta.
    repeat split; auto.
  - rewrite (Hnew algs e H1 H2) in Hrun. inversion Hrun as [[Ho Hw]].
    apply app_inv_head in Hw. subst delta. repeat split.
    + intros [H|[]]. discriminate H.
    + intros on msgNum body payload [H|[]]. discriminate H.
Qed.

Lemma proxy_setup_failure_silent_witness :
  proxySSH (Faults.env Sample.nominal Faults.algs_unavailable) Sample.session []
  = (Returned
       (Some "Failed to extract host key algorithms from known_hosts: open known_hosts: no such file or directory"),
     [])
  /\ proxySSH (Faults.env Sample.nominal Faults.proxy_refused) Sample.session []
     = (Returned (Some "ssh: handshake failed"),
        [EvNewProxyConn "srv.example" "alice" ["ssh-ed25519"]])
  /\ (~ In EvProxyRun [EvNewProxyConn "srv.example" "alice" ["ssh-ed25519"]]
      /\ handoff_messages
           [EvNewProxyConn "srv.example" "alice" ["ssh-ed25519"]] = []
      /\ forall on msgNum body payload,
           ~ In (EvWriteControlPacket on msgNum body payload)
                [EvNewProxyConn "srv.example" "alice" ["ssh-ed25519"]]).
Proof.
  split; [|split].
  - exact (proj1 (proxy_setup_failure_silent
                    (Faults.env Sample.nominal Faults.algs_unavailable)
                    Sample.session [])
             "open known_hosts: no such file or directory" eq_refl).
  - exact (proj1 (proj2 (proxy_setup_failure_silent
                           (Faults.env Sample.nominal Faults.proxy_refused)
                           Sample.session []))
             ["ssh-ed25519"] "ssh: handshake failed" eq_refl eq_refl).
  - apply (proj2 (proj2 (proxy_setup_failure_silent
                           (Faults.env Sample.nominal Faults.proxy_refused)
                           Sample.session []))
             (or_intror
                (ex_intro _ ["ssh-ed25519"]
                   (ex_intro _ "ssh: handshake failed" (conj eq_refl eq_refl))))
             (Returned (Some "ssh: handshake failed"))
             [EvNewProxyConn "srv.example" "alice" ["ssh-ed25519"]]).
    reflexivity.
Defined.

(** X2: once the proxy has run, what [proxySSH] returns is the result of
    writing the handoff message, whatever the run ended with: [nil] when
    the message was written, after a successful and after a failed run,
    and the write error when it was not, also when the run had failed
    with an error of its own. *)
Theorem proxy_result_is_write_result (E : Env) (scope : Scope) (w : World)
    (algs : list string) :
  let w1 := w ++ [EvNewProxyConn (ServiceHostname scope)
                                 (ServiceUsername scope) algs] in
  let w2 := w1 ++ [EvProxyRun] in
  let m := handoffMessage (proxy_done E w1) (BytesRead E w2)
                          (BufferedFromServer E w2) in
  let written :=
    write_result E w2 stream_control (fst m) (ssh_Marshal E (snd m)) in
  knownhosts_OrderHostKeyAlgs E w (ServiceHostname scope) = Ok algs ->
  ssh_NewProxyConn E w = None ->
  fst (proxySSH E scope w) = Returned written
  /\ (forall e,
         proxy_done E w1 = Some e ->
         written
         = write_result E w2 stream_control MsgNum_HANDOFF_FAILED
             (ssh_Marshal E (HandoffFailedMessage e)))
  /\ (proxy_done E w1 = None ->
      written
      = write_result E w2 stream_control MsgNum_HANDOFF_COMPLETE
          (ssh_Marshal E
             (HandoffCompleteMessage
                (uint32 (int_sub (BytesRead E w2) (BufferedFromServer E w2)))))).
Proof.
  intros w1 w2 m written Halgs Hnew.
  rewrite (proxySSH_ran E scope w algs Halgs Hnew). fold w1. fold w2. fold m.
  split; [reflexivity|]. unfold written, m. split.
  - intros e Hdone. now rewrite Hdone.
  - intros Hdone. now rewrite Hdone.
Qed.

(** The handshake fails and the stub no longer reads. *)
Lemma proxy_result_is_write_result_witness :
  fst (proxySSH (Sample.env Sample.failed_handshake) Sample.session [])
  = Returned None
  /\ fst (proxySSH
            (Sample.env
               (Sample.mkScenario (Some "io: read/write on closed pipe") None
                  None [Sample.signer_ok] true (Some "ssh: handshake failed")
                  42 7)) Sample.session [])
     = Returned (Some "io: read/write on closed pipe").
Proof.
  split.
  - exact (proj1 (proxy_result_is_write_result
                    (Sample.env Sample.failed_handshake) Sample.session []
                    ["ssh-ed25519"] eq_refl eq_refl)).
  - exact (proj1 (proxy_result_is_write_result
                    (Sample.env
                       (Sample.mkScenario (Some "io: read/write on closed pipe")
                          None None [Sample.signer_ok] true
                          (Some "ssh: handshake failed") 42 7))
                    Sample.session [] ["ssh-ed25519"] eq_refl eq_refl)).
Defined.

(** ** The execution session *)

Section ExecutionSession.

Variable E : Env.
Variable scope : Scope.
Variable cmd : string.
Variable w : World.

(** The history once the request was approved and the multiplexer asked
    for, and after each accepted stream. *)
Let approved : World :=
  (w ++ [EvRequestApproval scope cmd])
    ++ [EvWriteControlPacket conn_stub MsgNum_EXECUTION_APPROVED Packet_empty []].
Let mux : World := approved ++ [EvYamuxServer].
Let one : World := mux ++ [EvYamuxAccept].
Let two : World := one ++ [EvYamuxAccept].
Let three : World := two ++ [EvYamuxAccept].

Hypothesis Happroved : policy_RequestApproval E w scope cmd = None.

Ltac unfold_session :=
  unfold handleExecutionRequest, policy_call_RequestApproval,
    WriteControlPacket, ymux_Accept, defer, emit;
  unfold bind at 1; rewrite Happroved;
  unfold bind at 1; unfold bind at 1; fold approved.

Lemma session_mux_refused (e : error) :
  yamux_Server E approved = Some e ->
  handleExecutionRequest E scope cmd w
  = (Returned (Some ("Failed to start ymux: " +++ e)), mux).
Proof. intros H. unfold_session. now rewrite H. Qed.

Lemma session_control_refused (e : error) :
  yamux_Server E approved = None ->
  yamux_Accept E mux = Some e ->
  handleExecutionRequest E scope cmd w
  = (Returned (Some ("Failed to accept control stream: " +++ e)),
     one ++ [EvYamuxClose]).
Proof.
  intros H0 H1. unfold_session. rewrite H0. fold mux.
  unfold bind at 1. now rewrite H1.
Qed.

Lemma session_data_refused (e : error) :
  yamux_Server E approved = None ->
  yamux_Accept E mux = None ->
  yamux_Accept E one = Some e ->
  handleExecutionRequest E scope cmd w
  = (Returned (Some ("Failed to accept data stream: " +++ e)),
     two ++ [EvClose stream_control; EvYamuxClose]).
Proof.
  intros H0 H1 H2. unfold_session. rewrite H0. fold mux.
  unfold bind at 1. rewrite H1. fold one.
  unfold bind at 1. rewrite H2. fold two.
  unfold ret. cbv beta iota zeta. now rewrite <- app_assoc.
Qed.

Lemma session_transport_refused (e : error) :
  yamux_Server E approved = None ->
  yamux_Accept E mux = None ->
  yamux_Accept E one = None ->
  yamux_Accept E two = Some e ->
  handleExecutionRequest E scope cmd w
  = (Returned (Some ("Failed to get transport stream: " +++ e)),
     three ++ [EvClose stream_sshData; EvClose stream_control; EvYamuxClose]).
Proof.
  intros H0 H1 H2 H3. unfold_session. rewrite H0. fold mux.
  unfold bind at 1. rewrite H1. fold one.
  unfold bind at 1. rewrite H2. fold two.
  unfold bind at 1. rewrite H3. fold three.
  unfold ret. cbv beta iota zeta. now rewrite <- !app_assoc.
Qed.

Lemma session_proxied (err : option error) (w4 : World) :
  yamux_Server E approved = None ->
  yamux_Accept E mux = None ->
  yamux_Accept E one = None ->
  yamux_Accept E two = None ->
  proxySSH E scope three = (Returned err, w4) ->
  handleExecutionRequest E scope cmd w
  = (Returned (proxy_error err),
     w4 ++ [EvClose stream_transport; EvClose stream_sshData;
            EvClose stream_control;
            EvClose stream_transport; EvClose stream_sshData;
            EvClose stream_control; EvYamuxClose]).
Proof.
  intros H0 H1 H2 H3 Hp. unfold_session. rewrite H0. fold mux.
  unfold bind at 1. rewrite H1. fold one.
  unfold bind at 1. rewrite H2. fold two.
  unfold bind at 1. rewrite H3. fold three.
  unfold bind at 1. rewrite Hp.
  unfold bind, ret. cbv beta iota zeta.
  destruct err; cbv beta iota zeta; now rewrite <- !app_assoc.
Qed.

End ExecutionSession.

(** X3: after an approved execution request, a multiplexer that does not
    start or a stream that is not accepted ends the handler with an error
    naming the step; the proxy is not entered, the streams accepted so far
    are closed in the reverse order of their acceptance and the
    multiplexer session is closed last. *)
Theorem accept_failure_unwinds (E : Env) (scope : Scope) (cmd : string)
    (w : World) :
  let approved :=
    (w ++ [EvRequestApproval scope cmd])
      ++ [EvWriteControlPacket conn_stub MsgNum_EXECUTION_APPROVED
            Packet_empty []] in
  let mux := approved ++ [EvYamuxServer] in
  let one := mux ++ [EvYamuxAccept] in
  let two := one ++ [EvYamuxAccept] in
  let three := two ++ [EvYamuxAccept] in
  policy_RequestApproval E w scope cmd = None ->
  (forall e,
      yamux_Server E approved = Some e ->
      handleExecutionRequest E scope cmd w
      = (Returned (Some ("Failed to start ymux: " +++ e)), mux))
  /\ (yamux_Server E approved = None ->
      (forall e,
          yamux_Accept E mux = Some e ->
          handleExecutionRequest E scope cmd w
          = (Returned (Some ("Failed to accept control stream: " +++ e)),
             one ++ [EvYamuxClose]))
      /\ (yamux_Accept E mux = None ->
          (forall e,
              yamux_Accept E one = Some e ->
              handleExecutionRequest E scope cmd w
              = (Returned (Some ("Failed to accept data stream: " +++ e)),
                 two ++ [EvClose stream_control; EvYamuxClose]))
          /\ (yamux_Accept E one = None ->
              forall e,
                yamux_Accept E two = Some e ->
                handleExecutionRequest E scope cmd w
                = (Returned (Some ("Failed to get transport stream: " +++ e)),
                   three ++ [EvClose stream_sshData; EvClose stream_control;
                             EvYamuxClose])))).
Proof.
  intros approved mux one two three Hp.
  split; [intros e H; now apply session_mux_refused|].
  intros H0.
  split; [intros e H; now apply session_control_refused|].
  intros H1.
  split; [intros e H; now apply session_data_refused|].
  intros H2 e H. now apply session_transport_refused.
Qed.

Lemma accept_failure_unwinds_witness :
  handleExecutionRequest
    (Faults.env Sample.nominal (Faults.accept_refused 2)) Sample.session
    "uptime" []
  = (Returned (Some "Failed to get transport stream: session shutdown"),
     [EvRequestApproval Sample.session "uptime";
      EvWriteControlPacket conn_stub MsgNum_EXECUTION_APPROVED Packet_empty [];
      EvYamuxServer; EvYamuxAccept; EvYamuxAccept; EvYamuxAccept;
      EvClose stream_sshData; EvClose stream_control; EvYamuxClose]).
Proof.
  exact (proj2 (proj2 (proj2 (accept_failure_unwinds
                                (Faults.env Sample.nominal
                                   (Faults.accept_refused 2))
                                Sample.session "uptime" [] eq_refl)
                         eq_refl) eq_refl) eq_refl
           "session shutdown" eq_refl).
Defined.

(** X4: once the three streams are accepted, the handler returns the
    error of [proxySSH] under the prefix "Proxy session finished with
    error", or [nil] when there is none, and on either path closes the
    transport, data and control streams, closes each of them once more
    through the deferred calls and closes the multiplexer session last. *)
Theorem execution_session_closes_streams (E : Env) (scope : Scope)
    (cmd : string) (w : World) (err : option error) (w4 : World) :
  let approved :=
    (w ++ [EvRequestApproval scope cmd])
      ++ [EvWriteControlPacket conn_stub MsgNum_EXECUTION_APPROVED
            Packet_empty []] in
  let mux := approved ++ [EvYamuxServer] in
  let one := mux ++ [EvYamuxAccept] in
  let two := one ++ [EvYamuxAccept] in
  let three := two ++ [EvYamuxAccept] in
  policy_RequestApproval E w scope cmd = None ->
  yamux_Server E approved = None ->
  yamux_Accept E mux = None ->
  yamux_Accept E one = None ->
  yamux_Accept E two = None ->
  proxySSH E scope three = (Returned err, w4) ->
  handleExecutionRequest E scope cmd w
  = (Returned (proxy_error err),
     w4 ++ [EvClose stream_transport; EvClose stream_sshData;
            EvClose stream_control;
            EvClose stream_transport; EvClose stream_sshData;
            EvClose stream_control; EvYamuxClose]).
Proof.
  intros approved mux one two three Hp H0 H1 H2 H3 Hproxy.
  now apply session_proxied.
Qed.

Lemma execution_session_closes_streams_witness :
  handleExecutionRequest
    (Faults.env Sample.nominal Faults.proxy_refused) Sample.session "uptime" []
  = (Returned
       (Some "Proxy session finished with error: ssh: handshake failed"),
     [EvRequestApproval Sample.session "uptime";
      EvWriteControlPacket conn_stub MsgNum_EXECUTION_APPROVED Packet_empty [];
      EvYamuxServer; EvYamuxAccept; EvYamuxAccept; EvYamuxAccept;
      EvNewProxyConn "srv.example" "alice" ["ssh-ed25519"];
      EvClose stream_transport; EvClose stream_sshData; EvClose stream_control;
      EvClose stream_transport; EvClose stream_sshData; EvClose stream_control;
      EvYamuxClose]).
Proof.
  exact (execution_session_closes_streams
           (Faults.env Sample.nominal Faults.proxy_refused) Sample.session
           "uptime" [] (Some "ssh: handshake failed")
           [EvRequestApproval Sample.session "uptime";
            EvWriteControlPacket conn_stub MsgNum_EXECUTION_APPROVED
              Packet_empty [];
            EvYamuxServer; EvYamuxAccept; EvYamuxAccept; EvYamuxAccept;
            EvNewProxyConn "srv.example" "alice" ["ssh-ed25519"]]
           eq_refl eq_refl eq_refl eq_refl eq_refl eq_refl).
Defined.

(** ** More of the message loop *)

(** X5: an execution request ends the loop: with the identity of the last
    notice and the target of the request, the connection is handed to
    [handleExecutionRequest], whose result is the result of the loop;
    packets behind the request are not read. *)
Theorem execution_request_is_terminal (E : Env) (scope : Scope)
    (p1 p2 : bytes) (rest : list (MsgNum * bytes)) (closing : ReadError)
    (w : World) (notice : AgentForwardingNoticeMsg)
    (execReq : ExecutionRequestMessage) :
  ssh_Unmarshal_notice E p1 = Ok notice ->
  ssh_Unmarshal_execReq E p2 = Ok execReq ->
  HandleConnection_loop E scope
    ((MsgNum_AGENT_FORWARDING_NOTICE, p1)
       :: (MsgNum_EXECUTION_REQUEST, p2) :: rest) closing w
  = handleExecutionRequest E
      (mkScope (ReadableName notice) (Host notice) (Port notice)
               (Server execReq) (User execReq))
      (Command execReq)
      (w ++ [EvLog ("Got msgNum: "
                    +++ fmt_d (MsgNum_value E MsgNum_AGENT_FORWARDING_NOTICE));
             EvLog ("Got msgNum: "
                    +++ fmt_d (MsgNum_value E MsgNum_EXECUTION_REQUEST))]).
Proof.
  intros Hn Hx. cbn [HandleConnection_loop]. rewrite Hn.
  unfold bind at 1. unfold log_Printf, emit.
  cbn [HandleConnection_loop]. rewrite Hx.
  unfold bind at 1. cbn [ClientName ClientHostname ClientPort].
  now rewrite <- app_assoc.
Qed.

Lemma execution_request_is_terminal_witness :
  HandleConnection_loop (Sample.env Sample.exec_denied) Scope_zero
    [(MsgNum_AGENT_FORWARDING_NOTICE, []); (MsgNum_EXECUTION_REQUEST, []);
     (MsgNum_unknown 254, [])] (ReadFailure "connection reset") []
  = handleExecutionRequest (Sample.env Sample.exec_denied) Sample.session
      "uptime" [EvLog "Got msgNum: 200"; EvLog "Got msgNum: 201"].
Proof.
  exact (execution_request_is_terminal (Sample.env Sample.exec_denied)
           Scope_zero [] [] [(MsgNum_unknown 254, [])]
           (ReadFailure "connection reset") [] Sample.notice Sample.execReq
           eq_refl eq_refl).
Defined.

(** X6: a notice, an execution request or a credential request whose
    payload does not unmarshal ends the connection with an error; nothing
    is written to the stub, not even [AGENT_FAILURE], and the packets
    behind it are not read. *)
Theorem garbled_payload_no_reply (E : Env) (scope : Scope) (payload : bytes)
    (rest : list (MsgNum * bytes)) (closing : ReadError) (w : World)
    (e : error) :
  let logged m := w ++ [EvLog ("Got msgNum: " +++ fmt_d (MsgNum_value E m))] in
  (ssh_Unmarshal_notice E payload = Err e ->
   HandleConnection_loop E scope
     ((MsgNum_AGENT_FORWARDING_NOTICE, payload) :: rest) closing w
   = (Returned (Some ("Failed to unmarshal AgentForwardingNoticeMsg: " +++ e)),
      logged MsgNum_AGENT_FORWARDING_NOTICE))
  /\ (ssh_Unmarshal_execReq E payload = Err e ->
      HandleConnection_loop E scope
        ((MsgNum_EXECUTION_REQUEST, payload) :: rest) closing w
      = (Returned (Some ("Failed to unmarshal ExecutionRequestMessage: " +++ e)),
         logged MsgNum_EXECUTION_REQUEST))
  /\ (proto_Unmarshal_credReq E payload = Err e ->
      HandleConnection_loop E scope
        ((MsgNum_CREDENTIAL_REQUEST, payload) :: rest) closing w
      = (Returned (Some ("Failed to unmarshal CredentialRequest: " +++ e)),
         logged MsgNum_CREDENTIAL_REQUEST)).
Proof.
  intros logged. repeat split; intros H; cbn [HandleConnection_loop];
    rewrite H; reflexivity.
Qed.

Lemma garbled_payload_no_reply_witness :
  HandleConnection_loop (Faults.env Sample.nominal Faults.payload_garbled)
    Sample.laptop
    [(MsgNum_CREDENTIAL_REQUEST, [x2a]); (MsgNum_EXECUTION_REQUEST, [])]
    io_EOF []
  = (Returned (Some "Failed to unmarshal CredentialRequest: proto: unexpected EOF"),
     [EvLog "Got msgNum: 204"]).
Proof.
  exact (proj2 (proj2 (garbled_payload_no_reply
                         (Faults.env Sample.nominal Faults.payload_garbled)
                         Sample.laptop [x2a] [(MsgNum_EXECUTION_REQUEST, [])]
                         io_EOF [] "proto: unexpected EOF")) eq_refl).
Defined.

(** X7: a credential request whose challenge does not verify is answered
    with [DENIED] without the policy being asked; the UI is told that the
    request was blocked, and the loop goes on with the next packet and the
    same scope. *)
Theorem blocked_challenge_in_loop (E : Env) (scope : Scope) (payload : bytes)
    (rest : list (MsgNum * bytes)) (closing : ReadError) (w : World)
    (req : CredentialRequest) (e : error) (challenge : option Challenge) :
  let w0 := w ++ [EvLog ("Got msgNum: "
                         +++ fmt_d (MsgNum_value E MsgNum_CREDENTIAL_REQUEST))] in
  proto_Unmarshal_credReq E payload = Ok req ->
  checkChallenge E scope (req_Challenge req) w0
  = (Returned (Some e, challenge), w0) ->
  HandleConnection_loop E scope
    ((MsgNum_CREDENTIAL_REQUEST, payload) :: rest) closing w
  = HandleConnection_loop E scope rest closing
      (w0 ++ [denied_write E conn_stub;
              EvInform ("Error handling "
                        +++ CredentialRequestToString E scope req
                        +++ ": request BLOCKED due to invalid challenge: "
                        +++ e)]).
Proof.
  intros w0 Hu Hcheck.
  rewrite (HandleConnection_credential_request E scope payload rest closing w
             req req _ _ Hu
             (handleCredentialRequest_blocked E conn_stub scope req w0 _ _ _
                Hcheck)).
  now rewrite <- app_assoc.
Qed.

Lemma blocked_challenge_in_loop_witness :
  HandleConnection_loop (Sample.env Sample.nominal) Sample.laptop
    [(MsgNum_CREDENTIAL_REQUEST, [x07; xff])] io_EOF []
  = (Returned None,
     [EvLog "Got msgNum: 204";
      denied_write (Sample.env Sample.nominal) conn_stub;
      EvInform "Error handling credential request: request BLOCKED due to invalid challenge: Could not verify server public key against known_hosts"]).
Proof.
  exact (blocked_challenge_in_loop (Sample.env Sample.nominal) Sample.laptop
           [x07; xff] [] io_EOF [] (Sample.credReq [x07; xff])
           "Could not verify server public key against known_hosts"
           (Some (mkChallenge [[x07]; [xff]])) eq_refl eq_refl).
Defined.

(** ** More of challenge verification and signing *)

(** X8: [checkChallenge] fails closed: a request without a challenge, or
    with a challenge that lists no key, is refused whatever [known_hosts]
    holds, and when [known_hosts] cannot be loaded every challenge is
    refused; in both cases the challenge is left as it was. *)
Theorem checkChallenge_fails_closed (E : Env) (scope : Scope)
    (challenge : option Challenge) (w : World) :
  (GetServerPublicKeys challenge = [] ->
   exists e, checkChallenge E scope challenge w = (Returned (Some e, challenge), w))
  /\ (forall e,
         knownhosts_New E w = Err e ->
         checkChallenge E scope challenge w
         = (Returned (Some ("Failed to get known hosts: " +++ e), challenge), w)).
Proof.
  split.
  - intros Hkeys. rewrite checkChallenge_cases, Hkeys.
    destruct (knownhosts_New E w); simpl; eauto.
  - intros e H. now rewrite checkChallenge_cases, H.
Qed.

Lemma checkChallenge_fails_closed_witness :
  (exists e,
      checkChallenge (Sample.env Sample.nominal) Sample.laptop None []
      = (Returned (Some e, None), []))
  /\ checkChallenge (Faults.env Sample.nominal Faults.known_hosts_missing)
       Sample.laptop (Some (mkChallenge [[x2a]])) []
     = (Returned
          (Some "Failed to get known hosts: open known_hosts: no such file or directory",
           Some (mkChallenge [[x2a]])), []).
Proof.
  split.
  - exact (proj1 (checkChallenge_fails_closed (Sample.env Sample.nominal)
                    Sample.laptop None []) eq_refl).
  - exact (proj2 (checkChallenge_fails_closed
                    (Faults.env Sample.nominal Faults.known_hosts_missing)
                    Sample.laptop (Some (mkChallenge [[x2a]])) [])
             "open known_hosts: no such file or directory" eq_refl).
Defined.

(** X9: verification is idempotent: a challenge that was verified and
    narrowed verifies again, against the same [known_hosts], and stays as
    it is. *)
Theorem checkChallenge_idempotent (E : Env) (scope : Scope)
    (challenge challenge' : option Challenge) (w w' : World) :
  checkChallenge E scope challenge w = (Returned (None, challenge'), w') ->
  checkChallenge E scope challenge' w = (Returned (None, challenge'), w).
Proof.
  rewrite !checkChallenge_cases.
  destruct (knownhosts_New E w) as [kh|e]; [|discriminate].
  pose proof (checkChallenge_loop_first E kh scope
                (GetServerPublicKeys challenge)) as Hloop.
  destruct (checkChallenge_loop E kh scope (GetServerPublicKeys challenge))
    as [k|]; [|discriminate].
  destruct Hloop as (bad & rest & _ & _ & Hk).
  intros H. inversion H; subst. simpl. now rewrite Hk.
Qed.

Lemma checkChallenge_idempotent_witness :
  checkChallenge (Sample.env Sample.nominal) Sample.laptop
    (Some (mkChallenge [[x2a]])) []
  = (Returned (None, Some (mkChallenge [[x2a]])), []).
Proof.
  exact (checkChallenge_idempotent (Sample.env Sample.nominal) Sample.laptop
           (Some (mkChallenge [[x07]; [x2a]; [x09]]))
           (Some (mkChallenge [[x2a]])) [] [] eq_refl).
Defined.

(** X10: when [signCredential] succeeds on a credential that carries no
    signature yet, the bytes given to the signer are the marshalling of
    the returned credential with its signature fields cleared, the
    signature and its format are what the first signer returned for those
    bytes, and the signature key is that signer's public key. *)
Theorem signature_covers_unsigned_credential (E : Env) (cred cred' : Credential)
    (w w' : World) :
  Signature cred = [] ->
  SignatureFormat cred = "" ->
  signCredential E cred w = (Returned (None, cred'), w') ->
  exists signer others data sig,
    getSigners E w = signer :: others
    /\ proto_Marshal_cred E (unsigned cred') = Ok data
    /\ Sign signer w data = Ok sig
    /\ Signature cred' = Blob sig
    /\ SignatureFormat cred' = Format sig
    /\ SignatureKey cred' = PublicKey_Marshal signer
    /\ w' = w ++ [EvSign (PublicKey_Marshal signer) data].
Proof.
  intros Hsig Hfmt. rewrite signCredential_cases.
  destruct (getSigners E w) as [|signer others]; [discriminate|].
  destruct (rand_ReadFull E w 32) as [nonce|e]; [|discriminate].
  cbv zeta. rewrite Hsig, Hfmt.
  destruct (proto_Marshal_cred E _) as [data|e] eqn:Hm; [|discriminate].
  destruct (Sign signer w data) as [sig|e] eqn:Hs; [|discriminate].
  intros H. inversion H; subst.
  exists signer, others, data, sig. unfold unsigned. simpl. auto 10.
Qed.

Lemma signature_covers_unsigned_credential_witness :
  exists signer others data sig,
    getSigners (Sample.env Sample.nominal) [] = signer :: others
    /\ proto_Marshal_cred (Sample.env Sample.nominal)
         (unsigned
            (mkCredential [x01] (Some (mkChallenge [[x2a]])) (repeat x00 32)
               [x01] (x01 :: x2a :: repeat x00 32 ++ [x01]) "ssh-ed25519"))
       = Ok data
    /\ Sign signer [] data = Ok sig
    /\ x01 :: x2a :: repeat x00 32 ++ [x01] = Blob sig
    /\ "ssh-ed25519" = Format sig
    /\ [x01] = PublicKey_Marshal signer
    /\ [EvSign [x01] (x01 :: x2a :: repeat x00 32 ++ [x01])]
       = [] ++ [EvSign (PublicKey_Marshal signer) data].
Proof.
  exact (signature_covers_unsigned_credential (Sample.env Sample.nominal)
           (new_Credential (Sample.credReq [x2a]))
           (mkCredential [x01] (Some (mkChallenge [[x2a]])) (repeat x00 32)
              [x01] (x01 :: x2a :: repeat x00 32 ++ [x01]) "ssh-ed25519")
           [] [EvSign [x01] (x01 :: x2a :: repeat x00 32 ++ [x01])]
           eq_refl eq_refl eq_refl).
Defined.

(** X11: one call of the credential handler asks the policy at most once
    and invokes a signer at most once; when the challenge does not verify
    the policy is not asked at all. *)
Theorem credential_handler_asks_once (E : Env) (conn : Stream) (scope : Scope)
    (req : CredentialRequest) (w : World)
    (o : Outcome (option error * CredentialRequest)) (delta : list Event) :
  handleCredentialRequest E conn scope req w = (o, w ++ delta) ->
  (credential_prompts delta <= 1)%nat
  /\ (signer_invocations delta <= 1)%nat
  /\ (signer_invocations delta <= credential_prompts delta)%nat
  /\ (forall e challenge,
         checkChallenge E scope (req_Challenge req) w
         = (Returned (Some e, challenge), w) ->
         credential_prompts delta = 0%nat).
Proof.
  intros Hrun. apply handleCredentialRequest_events in Hrun.
  inversion Hrun as [e ch w1 Hcheck Hd
                    |e ch w1 Hcheck Hpolicy Hd
                    |ch w1 dsign tail Hcheck Hpolicy Hdsign Htail Hd];
    subst delta;
    pose proof (checkChallenge_world _ _ _ _ _ _ Hcheck) as ->.
  - split; [|split; [|split]]; [cbn; auto ..|]. reflexivity.
  - split; [|split; [|split]]; [cbn; auto ..|].
    intros e' ch' H. rewrite Hcheck in H. discriminate H.
  - assert (credential_prompts (dsign ++ tail) = 0%nat
            /\ (signer_invocations (dsign ++ tail) <= 1)%nat) as [Hp Hs].
    { destruct Hdsign as [->|(key & data & ->)];
        destruct Htail as [->|[->|(cred & b & -> & _)]]; simpl; auto. }
    split; [|split; [|split]].
    4:{ intros e' ch' H. rewrite Hcheck in H. discriminate H. }
    all: unfold credential_prompts, signer_invocations in *;
      cbn [filter List.length]; rewrite ?Hp; auto.
Qed.

Lemma credential_handler_asks_once_witness :
  exists delta,
    snd (handleCredentialRequest (Sample.env Sample.nominal) conn_stub
           Sample.laptop (Sample.credReq [x07; x2a]) []) = [] ++ delta
    /\ (credential_prompts delta <= 1)%nat
    /\ (signer_invocations delta <= 1)%nat
    /\ (signer_invocations delta <= credential_prompts delta)%nat.
Proof.
  eexists. split; [reflexivity|].
  refine (let H := credential_handler_asks_once (Sample.env Sample.nominal)
                     conn_stub Sample.laptop (Sample.credReq [x07; x2a]) []
                     _ _ _ in
          conj (proj1 H) (conj (proj1 (proj2 H)) (proj1 (proj2 (proj2 H))))).
  vm_compute. reflexivity.
Defined.

(** X12: the credential of an [APPROVED] response carries the operation
    of the request and is signed: the signer was invoked, in that call, on
    the marshalling of the credential with its signature fields cleared,
    the credential holds that signer's key, and the payload written is
    the marshalling of the response. *)
Theorem issued_credential_is_signed (E : Env) (conn : Stream) (scope : Scope)
    (req : CredentialRequest) (w : World)
    (o : Outcome (option error * CredentialRequest)) (delta : list Event)
    (cred : Credential) (b : bytes) :
  handleCredentialRequest E conn scope req w = (o, w ++ delta) ->
  In (approved_write conn cred b) delta ->
  cred_Op cred = req_Op req
  /\ proto_Marshal_status_cred E CredentialResponse_APPROVED cred = Ok b
  /\ exists data,
       proto_Marshal_cred E (unsigned cred) = Ok data
       /\ In (EvSign (SignatureKey cred) data) delta.
Proof.
  intros Hrun Hin.
  pose proof (handleCredentialRequest_events _ _ _ _ _ _ _ Hrun) as R.
  inversion R as [e ch w1 Hcheck Hd
                 |e ch w1 Hcheck Hpolicy Hd
                 |ch w1 dsign tail Hcheck Hpolicy Hdsign Htail Hd];
    subst delta.
  - destruct Hin as [Hin|[]]. discriminate Hin.
  - destruct Hin as [Hin|[Hin|[]]]; discriminate Hin.
  - pose proof (checkChallenge_world _ _ _ _ _ _ Hcheck) as ->.
    assert (tail = [approved_write conn cred b]) as ->.
    { destruct Hin as [Hin|Hin]; [discriminate Hin|].
      apply in_app_or in Hin. destruct Hin as [Hin|Hin].
      { destruct Hdsign as [->|(key & data & ->)];
          [destruct Hin|destruct Hin as [Hin|[]]; discriminate Hin]. }
      destruct Htail as [->|[->|(cred' & b' & -> & _)]].
      - destruct Hin.
      - destruct Hin as [Hin|[]]. discriminate Hin.
      - destruct Hin as [Hin|[]]. now rewrite Hin. }
    clear Htail Hin R.
    set (req' := narrowed req ch) in *.
    set (ask := EvRequestCredentialApproval scope req') in *.
    rewrite (handleCredentialRequest_approved E conn scope req w _ _
               Hcheck Hpolicy) in Hrun.
    fold req' in Hrun. fold ask in Hrun.
    replace (w ++ ask :: dsign ++ [approved_write conn cred b])
      with ((w ++ ask :: dsign) ++ [approved_write conn cred b]) in Hrun
      by now rewrite <- app_assoc.
    destruct (signCredential E (new_Credential req') (w ++ [ask]))
      as [[[[e|] cred0]|reason] w3] eqn:Hsign.
    + inversion Hrun as [[Ho Hw]].
      apply app_inj_tail in Hw. destruct Hw as [_ Hw]. discriminate Hw.
    + destruct (signature_covers_unsigned_credential E
                  (new_Credential req') cred0 _ _ eq_refl eq_refl Hsign)
        as (signer & others & data & sig & _ & Hm & _ & _ & _ & Hkey & Hw3).
      destruct (signCredential_trace E _ _ _ _ Hsign) as [_ Hkeep].
      destruct (Hkeep None cred0 eq_refl) as [Hop _].
      rewrite writeCredentialResponse_APPROVED in Hrun.
      destruct (proto_Marshal_status_cred E CredentialResponse_APPROVED cred0)
        as [b0|e] eqn:Hresp.
      * inversion Hrun as [[Ho Hw]].
        apply app_inj_tail in Hw. destruct Hw as [Hw Hev].
        inversion Hev; subst cred0 b0.
        split; [exact Hop|]. split; [exact Hresp|].
        exists data. split; [exact Hm|].
        rewrite Hw3, <- app_assoc in Hw. apply app_inv_head in Hw.
        simpl in Hw. inversion Hw as [Hd]. rewrite Hkey.
        right. apply in_or_app. left. now left.
      * inversion Hrun as [[Ho Hw]].
        rewrite Hw3 in Hw. apply app_inj_tail in Hw.
        destruct Hw as [_ Hw]. discriminate Hw.
    + inversion Hrun as [[Ho Hw]].
      destruct (signCredential_trace E _ _ _ _ Hsign) as [[->|(k & d & ->)] _].
      * apply app_inj_tail in Hw. destruct Hw as [_ Hw]. discriminate Hw.
      * apply app_inj_tail in Hw. destruct Hw as [_ Hw]. discriminate Hw.
Qed.

Lemma issued_credential_is_signed_witness :
  exists cred b,
    cred_Op cred = req_Op (Sample.credReq [x07; x2a])
    /\ proto_Marshal_status_cred (Sample.env Sample.nominal)
         CredentialResponse_APPROVED cred = Ok b
    /\ exists data,
         proto_Marshal_cred (Sample.env Sample.nominal) (unsigned cred) = Ok data
         /\ In (EvSign (SignatureKey cred) data)
              (snd (handleCredentialRequest (Sample.env Sample.nominal) conn_stub
                      Sample.laptop (Sample.credReq [x07; x2a]) [])).
Proof.
  eexists. eexists.
  eapply (issued_credential_is_signed (Sample.env Sample.nominal) conn_stub
            Sample.laptop (Sample.credReq [x07; x2a]) []).
  - vm_compute. reflexivity.
  - right. right. left. reflexivity.
Defined.

(** * Properties of the syscall marshaller *)

Module MarshallFacts.

Import Marshalls.

Lemma int_of_long_period (x k : Z) :
  int_of_long (x + k * 2 ^ 32) = int_of_long x.
Proof.
  unfold int_of_long.
  replace (x + k * 2 ^ 32 + 2 ^ 31) with (x + 2 ^ 31 + k * 2 ^ 32) by lia.
  now rewrite Z_mod_plus_full.
Qed.

Lemma int_of_long_small (x : Z) :
  - 2 ^ 31 <= x < 2 ^ 31 -> int_of_long x = x.
Proof. intros H. unfold int_of_long. rewrite Z.mod_small; lia. Qed.

(** Looking a number up finds what was registered under it. *)
Lemma registry_find_In (r : Registry) (k : Z) (cls : MarshallClass) :
  registry_find r k = Some cls -> In (k, cls) r.
Proof.
  induction r as [|[k' cls'] r IH]; simpl; [discriminate|].
  destruct (k' =? k) eqn:Hk.
  - apply Z.eqb_eq in Hk. intros H; inversion H; subst. now left.
  - intros H. right. now apply IH.
Qed.

Lemma registry_find_None (r : Registry) (k : Z) :
  registry_find r k = None <-> ~ In k (map fst r).
Proof.
  induction r as [|[k' cls'] r IH]; simpl.
  - split; auto.
  - destruct (k' =? k) eqn:Hk.
    + apply Z.eqb_eq in Hk. split; [discriminate|]. intros H. exfalso. auto.
    + apply Z.eqb_neq in Hk. rewrite IH. split.
      * intros H [H'|H']; auto.
      * intros H H'. apply H. now right.
Qed.

(** The registrations done from an initial registry. *)
Lemma registered_from (regs : list (Z * MarshallClass)) (acc r : Registry) :
  fold_left
    (fun r reg =>
       match r with
       | Some r => Registrar r (fst reg) (snd reg)
       | None => None
       end) regs (Some acc) = Some r ->
  NoDup (map fst regs)
  /\ (forall k, In k (map fst regs) -> ~ In k (map fst acc))
  /\ forall k cls,
       registry_find r k = Some cls
       <-> In (k, cls) regs \/ registry_find acc k = Some cls.
Proof.
  revert acc. induction regs as [|[n c] regs IH]; simpl; intros acc H.
  - inversion H; subst. split; [constructor|]. split; [intros k []|].
    intros k cls. split; [auto|]. now intros [[]|H'].
  - unfold Registrar in H at 2.
    destruct (registry_find acc n) eqn:Hn.
    { exfalso. clear -H. induction regs as [|x regs IH]; simpl in H;
        [discriminate|auto]. }
    apply IH in H. destruct H as (Hnodup & Hfresh & Hfind).
    apply registry_find_None in Hn.
    split; [|split].
    + constructor; [|exact Hnodup].
      intros Hin. apply (Hfresh n Hin). simpl. now left.
    + intros k [<-|Hin]; [exact Hn|].
      intros Hacc. apply (Hfresh k Hin). simpl. now right.
    + intros k cls. rewrite Hfind. simpl.
      destruct (n =? k) eqn:Hk.
      * apply Z.eqb_eq in Hk. subst k. split.
        -- intros [Hin|Hsome].
           ++ exfalso. apply (Hfresh n).
              ** apply in_map_iff. exists (n, cls). auto.
              ** simpl. now left.
           ++ inversion Hsome; subst. auto.
        -- intros [[Heq|Hin]|Hacc].
           ++ inversion Heq; subst. now right.
           ++ exfalso. apply (Hfresh n).
              ** apply in_map_iff. exists (n, cls). auto.
              ** simpl. now left.
           ++ exfalso. apply registry_find_None in Hn.
              rewrite Hn in Hacc. discriminate.
      * apply Z.eqb_neq in Hk. split.
        -- intros [Hin|Hacc]; auto.
        -- intros [[Heq|Hin]|Hacc]; auto.
           inversion Heq; subst. congruence.
Qed.

(** X13: a series of registrations goes through without a failed assertion
    only when no syscall number is registered twice, and the registry then
    maps each registered number to its marshaller and no other number to
    anything. *)
Theorem registrations_are_unique (regs : list (Z * MarshallClass))
    (r : Registry) :
  registered regs = Some r ->
  NoDup (map fst regs)
  /\ forall k cls, registry_find r k = Some cls <-> In (k, cls) regs.
Proof.
  intros H. apply registered_from in H. destruct H as (Hnodup & _ & Hfind).
  split; [exact Hnodup|].
  intros k cls. rewrite Hfind. simpl. split; [|auto].
  intros [H|H]; [exact H|discriminate].
Qed.

(** The registry of the program holds the registrations of the file. *)
Lemma static_registry_find (k : Z) (cls : MarshallClass) :
  registry_find static_registry k = Some cls <-> In (k, cls) registrations.
Proof.
  assert (registered registrations = Some static_registry) as H
    by reflexivity.
  apply registered_from in H. destruct H as (_ & _ & Hfind).
  rewrite Hfind. simpl. split; [|auto].
  intros [H|H]; [exact H|discriminate].
Qed.

Lemma registrations_are_unique_witness :
  NoDup (map fst registrations)
  /\ forall k cls,
       registry_find static_registry k = Some cls <-> In (k, cls) registrations.
Proof.
  exact (registrations_are_unique registrations static_registry eq_refl).
Defined.

(** The loop stops on the last result: a descriptor stays in [*result],
    anything else leaves -1. *)
Lemma ProcessResponse_loop_last (processors : list ResultProcessor)
    (rs : list Argument) (a : Argument) (result : Z) :
  (List.length rs < List.length processors)%nat ->
  ProcessResponse_loop processors (rs ++ [a]) result
  = match a with
    | fd_arg fd => fd
    | _ => -1
    end.
Proof.
  revert processors result.
  induction rs as [|r rs IH]; intros [|[] processors] result Hlen;
    simpl in Hlen; try lia.
  - destruct a; destruct processors; reflexivity.
  - rewrite <- app_comm_cons. cbn [ProcessResponse_loop].
    destruct (Process FdProcessor r result) as [ok result'].
    apply IH. lia.
Qed.

(** X14: [ProcessResponse] overwrites [*result] whatever it held: with
    more results than processors it leaves -1; with no result it leaves
    the negated [errno_code]; otherwise the last result decides, a
    descriptor being stored as it is and any other result leaving -1, so
    that a descriptor is returned even when [errno_code] is set and an
    earlier failure is forgotten. *)
Theorem ProcessResponse_last_result_wins (m : SyscallMarshall)
    (response : ElevationResponse) (result : Z) :
  ((List.length (result_processors m) < List.length (results response))%nat ->
   ProcessResponse m response result = -1)
  /\ (results response = [] ->
      ProcessResponse m response result = int_neg (errno_code response))
  /\ (forall rs a,
         results response = rs ++ [a] ->
         (List.length (results response) <= List.length (result_processors m))%nat ->
         ProcessResponse m response result
         = match a with
           | fd_arg fd => fd
           | _ => -1
           end).
Proof.
  unfold ProcessResponse. split; [|split].
  - intros H.
    destruct (Z.of_nat (List.length (result_processors m))
              <? Z.of_nat (List.length (results response))) eqn:Hlt;
      [reflexivity|]. apply Z.ltb_ge in Hlt. lia.
  - intros ->. simpl.
    destruct (Z.of_nat (List.length (result_processors m)) <? Z.of_nat 0) eqn:Hlt.
    + apply Z.ltb_lt in Hlt. lia.
    + now destruct (result_processors m).
  - intros rs a Hrs Hlen.
    destruct (Z.of_nat (List.length (result_processors m))
              <? Z.of_nat (List.length (results response))) eqn:Hlt.
    + apply Z.ltb_lt in Hlt. lia.
    + rewrite Hrs in *. apply ProcessResponse_loop_last.
      rewrite length_app in Hlen. simpl in Hlen. lia.
Qed.

Lemma ProcessResponse_last_result_wins_witness :
  ProcessResponse (mkMarshall 0 0 0 0 0 0 [] [FdProcessor])
    (mkResponse 13 [string_arg "x"; fd_arg 5]) 0 = -1
  /\ ProcessResponse (mkMarshall 0 0 0 0 0 0 [] [FdProcessor; FdProcessor])
       (mkResponse 13 [string_arg "x"; fd_arg 5]) 0 = 5.
Proof.
  split.
  - apply (proj1 (ProcessResponse_last_result_wins
                    (mkMarshall 0 0 0 0 0 0 [] [FdProcessor])
                    (mkResponse 13 [string_arg "x"; fd_arg 5]) 0)).
    simpl. lia.
  - apply (proj2 (proj2 (ProcessResponse_last_result_wins
                           (mkMarshall 0 0 0 0 0 0 [] [FdProcessor; FdProcessor])
                           (mkResponse 13 [string_arg "x"; fd_arg 5]) 0))
             [string_arg "x"] (fd_arg 5)).
    + reflexivity.
    + simpl. lia.
Defined.

Section Calls.

Variable c_str : Z -> string.
Variable mem : Z -> Z -> bytes.
Variable as_fd : Z -> Z.
Variable as_int : Z -> Z.
Variable permissions : string -> option Z.

Local Abbreviation New := (New c_str mem as_fd as_int static_registry).

(** X15: the marshaller of a call that has an [at] form is the marshaller
    of that form on the current directory: [open], [mkdir], [symlink],
    [unlink], [rmdir] and [access] yield the object, with the same
    arguments and result processors, that [openat], [mkdirat],
    [symlinkat], [unlinkat] and [faccessat] yield with [AT_FDCWD] as
    directory ([rmdir] with the flag [AT_REMOVEDIR], [unlink] and [access]
    with flags 0). *)
Theorem legacy_calls_marshal_as_at_calls (a0 a1 a2 a3 a4 a5 : Z) :
  New SYS_open a0 a1 a2 a3 a4 a5 = New SYS_openat AT_FDCWD a0 a1 a2 a3 a4
  /\ New SYS_mkdir a0 a1 a2 a3 a4 a5 = New SYS_mkdirat AT_FDCWD a0 a1 a2 a3 a4
  /\ New SYS_symlink a0 a1 a2 a3 a4 a5
     = New SYS_symlinkat a0 AT_FDCWD a1 a3 a4 a5
  /\ New SYS_unlink a0 a1 a2 a3 a4 a5 = New SYS_unlinkat AT_FDCWD a0 0 a3 a4 a5
  /\ New SYS_rmdir a0 a1 a2 a3 a4 a5
     = New SYS_unlinkat AT_FDCWD a0 AT_REMOVEDIR a3 a4 a5
  /\ New SYS_access a0 a1 a2 a3 a4 a5
     = New SYS_faccessat AT_FDCWD a0 a1 0 a4 a5.
Proof. repeat split. Qed.

(** X16: [New] looks the call up by the low 32 bits of its number: it
    returns no marshaller exactly when the number, converted to [int], was
    not registered, and two numbers that differ by a multiple of [2^32]
    get the same marshaller. *)
Theorem New_looks_up_low_bits (syscall_number k a0 a1 a2 a3 a4 a5 : Z) :
  (New syscall_number a0 a1 a2 a3 a4 a5 = None
   <-> ~ In (int_of_long syscall_number) (map fst registrations))
  /\ New (syscall_number + k * 2 ^ 32) a0 a1 a2 a3 a4 a5
     = New syscall_number a0 a1 a2 a3 a4 a5.
Proof.
  split.
  - unfold Marshalls.New.
    destruct (registry_find static_registry (int_of_long syscall_number))
      as [cls|] eqn:Hfind.
    + split; [discriminate|]. intros H. exfalso. apply H.
      apply static_registry_find in Hfind.
      apply in_map_iff. exists (int_of_long syscall_number, cls). auto.
    + split; [|reflexivity]. intros _ Hin.
      apply in_map_iff in Hin. destruct Hin as ([n cls] & Hn & Hin).
      simpl in Hn. subst n.
      apply static_registry_find in Hin.
      rewrite Hin in Hfind. discriminate.
  - unfold Marshalls.New. now rewrite int_of_long_period.
Qed.

Lemma New_result_processors (syscall_number a0 a1 a2 a3 a4 a5 : Z)
    (m : SyscallMarshall) :
  New syscall_number a0 a1 a2 a3 a4 a5 = Some m ->
  result_processors m
  = if returns_descriptor syscall_number then [FdProcessor] else [].
Proof.
  unfold Marshalls.New, returns_descriptor.
  destruct (registry_find static_registry (int_of_long syscall_number))
    as [cls|] eqn:Hfind; [|discriminate].
  apply static_registry_find in Hfind.
  intros H. inversion H; subst m. clear H.
  simpl in Hfind.
  repeat (destruct Hfind as [Hfind|Hfind];
          [injection Hfind as Hk Hc; rewrite <- Hk, <- Hc; reflexivity|]).
  destruct Hfind.
Qed.

(** X17: how a response ends a registered call.  Without a result the
    call returns the negated [errno_code].  For [open], [openat] and
    [socket] a single descriptor is returned as it is, whatever
    [errno_code] says; a single result of another kind gives -1.  For
    every other call any result gives -1, and two results or more give -1
    for all calls. *)
Theorem response_of_registered_call (syscall_number a0 a1 a2 a3 a4 a5 : Z)
    (m : SyscallMarshall) (response : ElevationResponse) (result : Z) :
  New syscall_number a0 a1 a2 a3 a4 a5 = Some m ->
  (results response = [] ->
   ProcessResponse m response result = int_neg (errno_code response))
  /\ (forall a,
         results response = [a] ->
         ProcessResponse m response result
         = match a with
           | fd_arg fd => if returns_descriptor syscall_number then fd else -1
           | _ => -1
           end)
  /\ ((2 <= List.length (results response))%nat ->
      ProcessResponse m response result = -1).
Proof.
  intros Hnew. apply New_result_processors in Hnew.
  destruct (ProcessResponse_last_result_wins m response result)
    as (Hmany & Hnone & Hlast).
  split; [exact Hnone|]. split.
  - intros a Hres.
    destruct (returns_descriptor syscall_number).
    + rewrite (Hlast [] a Hres); [reflexivity|].
      rewrite Hnew, Hres. simpl. lia.
    + rewrite Hmany; [now destruct a|].
      rewrite Hnew, Hres. simpl. lia.
  - intros Hlen. apply Hmany. rewrite Hnew.
    destruct (returns_descriptor syscall_number); simpl; lia.
Qed.

(** X18: [ShouldHook] on the marshaller of [access] or [faccessat]
    answers true without looking at the file when the mode, as a
    [mode_t], is not [X_OK].  When it is [X_OK], the file named by the
    path is examined: the exception of [fs::status] leaves [ShouldHook]
    when the file cannot be examined, and otherwise the answer is false
    exactly when the file has none of the three execute bits.  The
    directory descriptor and the flags play no part. *)
Theorem access_should_hook (dirfd path mode flags a2 a3 a4 a5 : Z)
    (m : SyscallMarshall) :
  New SYS_access path mode a2 a3 a4 a5 = Some m
  \/ New SYS_faccessat dirfd path mode flags a4 a5 = Some m ->
  let hook := FaccessAtMarshall_ShouldHook c_str permissions m in
  let no_exec p :=
    Z.land p perms_owner_exec = 0
    /\ Z.land p perms_group_exec = 0
    /\ Z.land p perms_others_exec = 0 in
  (mode mod 2 ^ 32 <> X_OK -> hook = Some true)
  /\ (mode mod 2 ^ 32 = X_OK ->
      (permissions (c_str path) = None -> hook = None)
      /\ forall p,
           permissions (c_str path) = Some p ->
           (no_exec p -> hook = Some false)
           /\ (~ no_exec p -> hook = Some true))
  /\ (hook = Some false
      <-> mode mod 2 ^ 32 = X_OK
          /\ exists p, permissions (c_str path) = Some p /\ no_exec p)
  /\ (hook = None
      <-> mode mod 2 ^ 32 = X_OK /\ permissions (c_str path) = None).
Proof.
  intros Hnew hook no_exec.
  assert (arg1 m = path /\ arg2 m = mode) as [H1 H2].
  { destruct Hnew as [H|H]; inversion H; subst m; split; reflexivity. }
  assert (forall p,
             (Z.land p perms_owner_exec =? 0)
             && (Z.land p perms_group_exec =? 0)
             && (Z.land p perms_others_exec =? 0) = true
             <-> no_exec p) as Hbits.
  { intros p. unfold no_exec. rewrite !andb_true_iff, !Z.eqb_eq. tauto. }
  unfold hook, FaccessAtMarshall_ShouldHook, mode_t_of_long, perms_none.
  rewrite H1, H2. clear hook.
  destruct (mode mod 2 ^ 32 =? X_OK) eqn:Hmode.
  - apply Z.eqb_eq in Hmode.
    destruct (permissions (c_str path)) as [p|].
    + destruct ((Z.land p perms_owner_exec =? 0)
                && (Z.land p perms_group_exec =? 0)
                && (Z.land p perms_others_exec =? 0)) eqn:Hb.
      * apply Hbits in Hb.
        split; [intros H; contradiction|]. split.
        { intros _. split; [discriminate|].
          intros q Hq. inversion Hq; subst q.
          split; [reflexivity|intros A; contradiction]. }
        split.
        { split; [|reflexivity]. intros _. split; [exact Hmode|]. eauto. }
        split; [discriminate|]. intros [_ H]. discriminate H.
      * assert (~ no_exec p) as Hno.
        { intros A. apply Hbits in A. rewrite A in Hb. discriminate Hb. }
        split; [intros H; contradiction|]. split.
        { intros _. split; [discriminate|].
          intros q Hq. inversion Hq; subst q.
          split; [intros A; contradiction|reflexivity]. }
        split.
        { split; [discriminate|].
          intros (_ & q & Hq & A). inversion Hq; subst q. contradiction. }
        split; [discriminate|]. intros [_ H]. discriminate H.
    + split; [intros H; contradiction|]. split.
      { intros _. split; [reflexivity|]. intros q Hq. discriminate Hq. }
      split.
      { split; [discriminate|]. intros (_ & q & Hq & _). discriminate Hq. }
      split; auto.
  - apply Z.eqb_neq in Hmode.
    split; [reflexivity|]. split; [intros H; contradiction|].
    split; (split; [discriminate|]); intros [H _]; contradiction.
Qed.

End Calls.

Lemma response_of_registered_call_witness :
  exists m,
    Marshalls.New sample_c_str sample_mem int_of_long int_of_long
      static_registry SYS_open 4096 0 0 0 0 0 = Some m
    /\ ProcessResponse m (mkResponse 13 [fd_arg 5]) 0 = 5.
Proof.
  eexists. split; [reflexivity|].
  exact (proj1 (proj2 (response_of_registered_call sample_c_str sample_mem
                         int_of_long int_of_long SYS_open 4096 0 0 0 0 0 _
                         (mkResponse 13 [fd_arg 5]) 0 eq_refl))
           (fd_arg 5) eq_refl).
Defined.

Lemma access_should_hook_witness :
  exists m,
    Marshalls.New sample_c_str sample_mem int_of_long int_of_long
      static_registry SYS_access 8192 X_OK 0 0 0 0 = Some m
    /\ FaccessAtMarshall_ShouldHook sample_c_str sample_permissions m
       = Some false.
Proof.
  eexists. split; [reflexivity|].
  apply (proj2 (proj1 (proj2 (proj2 (access_should_hook sample_c_str sample_mem
                  int_of_long int_of_long sample_permissions 0 8192 X_OK 0
                  0 0 0 0 _ (or_introl eq_refl)))))).
  split; [reflexivity|]. exists 420. repeat split.
Defined.

(** Asking whether a file that may not be examined is executable. *)
Example access_should_hook_throws :
  exists m,
    Marshalls.New sample_c_str sample_mem int_of_long int_of_long
      static_registry SYS_access 12288 X_OK 0 0 0 0 = Some m
    /\ FaccessAtMarshall_ShouldHook sample_c_str sample_permissions m = None.
Proof. eexists. split; reflexivity. Qed.

End MarshallFacts.
